(** * DNA Fragment Grouper: a shallow embedding of [DNA_fragments.py]

    The development follows the layout of the Python module: the string
    primitives the code borrows from Python ([str.find], [str.split],
    [str.replace], slicing), the ordinal replacement [nth_repl], the
    distance engine, the group packer, the aggressive merger, the sequence
    rewriter and the [pipeline] that chains them.  The model comes first,
    the properties after it. *)

From Stdlib Require Import ZArith QArith Qround Lia Lqa Ascii String List Sorted.
From stdpp Require Import base gmap strings list sorting pretty.

Local Open Scope Z_scope.

(** ** Results of fallible code

    [Raise] carries a Python exception.  [OutOfFuel] only says that a
    bounded unrolling of a [while] loop was too short; the termination
    lemmas show that it never shows up with the fuel the model supplies. *)

Inductive exn : Type := ValueError.

Inductive res (A : Type) : Type :=
| Ret (a : A)
| Raise (e : exn)
| OutOfFuel.

Arguments Ret {A} a.
Arguments Raise {A} e.
Arguments OutOfFuel {A}.

#[global] Instance res_ret : MRet res := fun A a => Ret a.

#[global] Instance res_bind : MBind res := fun A B k m =>
  match m with
  | Ret a => k a
  | Raise e => Raise e
  | OutOfFuel => OutOfFuel
  end.

#[global] Instance res_fmap : FMap res := fun A B f m =>
  match m with
  | Ret a => Ret (f a)
  | Raise e => Raise e
  | OutOfFuel => OutOfFuel
  end.

(** ** Python strings *)

Module PyStr.

Definition len (s : string) : Z := Z.of_nat (String.length s).

Fixpoint take (n : nat) (s : string) : string :=
  match n, s with
  | S n', String c s' => String c (take n' s')
  | _, _ => EmptyString
  end.

Fixpoint drop (n : nat) (s : string) : string :=
  match n, s with
  | S n', String _ s' => drop n' s'
  | _, _ => s
  end.

(** Slice bounds: a negative index counts from the end, and both ends are
    clipped to the string. *)
Definition clip (s : string) (k : Z) : nat :=
  if k <? 0 then Z.to_nat (Z.max 0 (len s + k))
  else Z.to_nat (Z.min k (len s)).

(** [s[:k]] and [s[k:]]. *)
Definition slice_to (s : string) (k : Z) : string := take (clip s k) s.
Definition slice_from (s : string) (k : Z) : string := drop (clip s k) s.

(** Lowest position [>= pos] at which [sub] starts, scanning the suffix
    [s] that begins at absolute offset [pos]. *)
Fixpoint find_at (sub s : string) (pos : nat) : option nat :=
  if String.prefix sub s then Some pos
  else match s with
       | EmptyString => None
       | String _ s' => find_at sub s' (S pos)
       end.

(** [s.find(sub, start)], with [-1] when there is no occurrence. *)
Definition find (s sub : string) (start : Z) : Z :=
  if len s <? start then -1
  else
    let b := clip s start in
    match find_at sub (drop b s) b with
    | Some p => Z.of_nat p
    | None => -1
    end.

(** [s.split(sep)] for a non-empty separator: [skip] counts the
    characters of a separator just matched that are still to be passed
    over.  The head of the result is the piece under construction. *)
Fixpoint split_go (sep : string) (skip : nat) (s : string) : list string :=
  match s with
  | EmptyString => [EmptyString]
  | String c s' =>
      match skip with
      | S k => split_go sep k s'
      | O =>
          if String.prefix sep s
          then EmptyString :: split_go sep (String.length sep - 1) s'
          else match split_go sep 0 s' with
               | piece :: pieces => String c piece :: pieces
               | [] => [String c EmptyString]
               end
      end
  end.

(** [s.split(sep)]; an empty separator raises [ValueError]. *)
Definition split (s sep : string) : res (list string) :=
  match sep with
  | EmptyString => Raise ValueError
  | _ => Ret (split_go sep 0 s)
  end.

Fixpoint count_go (sub : string) (skip : nat) (s : string) : nat :=
  match s with
  | EmptyString => O
  | String _ s' =>
      match skip with
      | S k => count_go sub k s'
      | O =>
          if String.prefix sub s
          then S (count_go sub (String.length sub - 1) s')
          else count_go sub 0 s'
      end
  end.

(** [s.count(sub)]: the occurrences met by a left-to-right scan that
    resumes behind each match; an empty [sub] matches at every character
    boundary. *)
Definition count (s sub : string) : nat :=
  match sub with
  | EmptyString => S (String.length s)
  | _ => count_go sub 0 s
  end.

Fixpoint replace_go (old new : string) (skip : nat) (s : string) : string :=
  match s with
  | EmptyString => EmptyString
  | String c s' =>
      match skip with
      | S k => replace_go old new k s'
      | O =>
          if String.prefix old s
          then new +:+ replace_go old new (String.length old - 1) s'
          else String c (replace_go old new 0 s')
      end
  end.

Fixpoint intersperse (new s : string) : string :=
  match s with
  | EmptyString => EmptyString
  | String c s' => String c (new +:+ intersperse new s')
  end.

(** [s.replace(old, new)]: every non-overlapping occurrence, left to
    right; an empty [old] matches at every character boundary. *)
Definition replace (s old new : string) : string :=
  match old with
  | EmptyString => new +:+ intersperse new s
  | _ => replace_go old new 0 s
  end.

Definition upper_char (c : ascii) : ascii :=
  let n := nat_of_ascii c in
  if ((97 <=? n) && (n <=? 122))%nat then ascii_of_nat (n - 32) else c.

(** [s.upper()] on ASCII text. *)
Fixpoint upper (s : string) : string :=
  match s with
  | EmptyString => EmptyString
  | String c s' => String (upper_char c) (upper s')
  end.

(** [s * k]. *)
Fixpoint times (s : string) (k : nat) : string :=
  match k with
  | O => EmptyString
  | S k' => s +:+ times s k'
  end.

(** ["".join(parts)]. *)
Definition join (parts : list string) : string :=
  fold_right String.append EmptyString parts.

(** Number of positions of [s] at which [sub] starts (occurrences may
    overlap). *)
Fixpoint occurrences (sub s : string) : nat :=
  ((if String.prefix sub s then 1 else 0) +
   match s with
   | EmptyString => 0
   | String _ s' => occurrences sub s'
   end)%nat.

(** The positions themselves, in increasing order, [pos] being the offset
    of [s]. *)
Fixpoint positions (sub s : string) (pos : nat) : list nat :=
  (if String.prefix sub s then [pos] else []) ++
  match s with
  | EmptyString => []
  | String _ s' => positions sub s' (S pos)
  end.

(** [sub in s]. *)
Definition contains (sub s : string) : bool :=
  match find_at sub s 0 with
  | Some _ => true
  | None => false
  end.

End PyStr.

(** ** Module constants *)

Definition BsmBI : string := "CGTCTC".
Definition BsmBI_rev : string := "GAGACG".
Definition BsaI : string := "GGTCTC".
Definition BsaI_rev : string := "GAGACC".
Definition BbsI : string := "GAAGACT".
Definition BbsI_rev : string := "AGTCTTC".
Definition BspMI : string := "ACCTGCTTA".
Definition BspMI_rev : string := "TAAGCAGGT".

Definition NUCL : list string := ["A"; "T"; "C"; "G"]%string.
Definition MIN_LENGTH : Z := 301.
Definition MAX_LENGTH : Z := 499.

(** ** [nth_repl] *)

(** The [while find != -1 and i != n] loop; one unit of fuel per
    iteration. *)
Fixpoint nth_repl_loop (fuel : nat) (s old : string) (n : Z) (find i : Z)
  : res (Z * Z) :=
  if negb (find =? -1) && negb (i =? n) then
    match fuel with
    | O => OutOfFuel
    | S fuel' =>
        nth_repl_loop fuel' s old n (PyStr.find s old (find + 1)) (i + 1)
    end
  else Ret (find, i).

Definition nth_repl (s old new : string) (n : Z) : res string :=
  let find := PyStr.find s old 0 in
  let i := if find =? -1 then 0 else 1 in
  '(find, i) ← nth_repl_loop (S (String.length s)) s old n find i;
  if i =? n then
    parts ← PyStr.split s old;
    if i <=? Z.of_nat (List.length parts) - 1
    then Ret (PyStr.slice_to s find +:+ new
              +:+ PyStr.slice_from s (find + PyStr.len old))
    else Ret s
  else Ret s.

(** The four ordinal substitutions at the head of the loop body of
    [replace_cut_sites_and_pad]. *)
Definition cut_site_chain (sequence : string) : res string :=
  new_seq ← nth_repl sequence BsmBI BbsI 2;
  new_seq ← nth_repl new_seq BsmBI_rev BbsI_rev 2;
  new_seq ← nth_repl new_seq BsmBI BspMI 2;
  nth_repl new_seq BsmBI_rev BspMI_rev 2.

(** ** Tables

    One record per shape a data frame takes along the pipeline.  [Frag.t]
    is a row of the loaded table (columns [Name], [Author], [Sequence], in
    this order, which is the order the unpacking [name, author, frag = row]
    relies on), [Tagged.t] adds the [Cluster] column, [Packed.t] the
    [Group] column, and [Grouped.t] is a row of the aggregated table. *)

Module Frag.
Record t : Type := { Name : string; Author : string; Sequence : string }.
End Frag.

Module Tagged.
Record t : Type := { frag : Frag.t; Cluster : Z }.
Definition Sequence (r : t) : string := Frag.Sequence (frag r).
Definition Name (r : t) : string := Frag.Name (frag r).
End Tagged.

Module Packed.
Record t : Type := { tagged : Tagged.t; Group : Z }.
Definition Sequence (r : t) : string := Tagged.Sequence (tagged r).
Definition Name (r : t) : string := Tagged.Name (tagged r).
Definition set_Group (r : t) (g : Z) : t := {| tagged := tagged r; Group := g |}.
End Packed.

Module Grouped.
Record t : Type :=
  { Group : Z; Sequence : string; Name : list string; Length : Z }.
End Grouped.

(** ** What the module takes from outside

    [levenshtein] is [distance.levenshtein]; [affinity_labels sim i] is
    entry [i] of [AffinityPropagation(...).fit(sim).labels_]; [np_empty i]
    is the integer read back from slot [i] of an [np.empty] array that was
    never written; [rand_index row j] is the [j]-th draw of
    [random.choices] while row [row] is padded. *)

Record externals : Type := {
  levenshtein : string -> string -> Z;
  affinity_labels : list (list Z) -> nat -> Z;
  np_empty : nat -> Z;
  rand_index : nat -> nat -> nat
}.

(** The progress callback is modelled by the list of values it receives,
    in call order; [progress = false] stands for [progress=None].  A
    percentage is the rational number the Python expression denotes. *)
Definition emit (progress : bool) (v : Q) : list Q :=
  if progress then [v] else [].

Definition enumerate {A : Type} (l : list A) : list (nat * A) :=
  imap (fun i x => (i, x)) l.

(** ** [compute_distance_matrix] *)

(** [(i / n) * 80 + 2] *)
Definition distance_percent (i n : nat) : Q :=
  (inject_Z (Z.of_nat i) / inject_Z (Z.of_nat n) * 80 + 2)%Q.

Definition distance_row (E : externals) (fragments : list string)
    (progress : bool) (step : Z) (st : list Q * list (list Z))
    (entry : nat * string) : list Q * list (list Z) :=
  let '(trace, matrix) := st in
  let '(i, f2) := entry in
  let trace :=
    if (Z.of_nat i mod step =? 0) && progress
    then trace ++ [distance_percent i (List.length fragments)]
    else trace in
  (trace, matrix ++ [map (fun f1 => - levenshtein E f1 f2) fragments]).

Definition compute_distance_matrix (E : externals) (fragments : list string)
    (progress : bool) : list Q * list (list Z) :=
  let n := Z.of_nat (List.length fragments) in
  let step := Z.max 1 (n / 100) in
  let '(trace, matrix) :=
    foldl (distance_row E fragments progress step) ([], [])
          (enumerate fragments) in
  (trace ++ emit progress 90, matrix).

(** ** [group_fragments] *)

(** Local state of the packer.  [group_labels] is the [np.empty] array: a
    slot holds [None] until the code writes it.  [group], [total_length]
    and [clusters] are the accumulators of the pass under way. *)
Record packer : Type := {
  used_fragments : gset string;
  group_labels : list (option Z);
  group_counter : Z;
  group : list string;
  total_length : Z;
  clusters : gset Z
}.

(** Body of [for idx, row in df.iterrows()].  [idx] is the position of the
    row: [pipeline] resets the index before it calls the packer. *)
Definition visit (max_length : Z) (st : packer) (idx : nat) (row : Tagged.t)
  : packer :=
  let frag := Tagged.Sequence row in
  let cluster := Tagged.Cluster row in
  if bool_decide (frag ∈ used_fragments st) then st
  else
    let frag_length := PyStr.len frag in
    if (List.length (group st) <? 3)%nat
       && (total_length st + frag_length <=? max_length)
       && negb (bool_decide (cluster ∈ clusters st))
    then {| used_fragments := used_fragments st ∪ {[frag]};
            group_labels := <[idx := Some (group_counter st)]> (group_labels st);
            group_counter := group_counter st;
            group := group st ++ [frag];
            total_length := total_length st + frag_length;
            clusters := clusters st ∪ {[cluster]} |}
    else if (List.length (group st) =? 0)%nat && (500 <=? frag_length)
    then {| used_fragments := used_fragments st ∪ {[frag]};
            group_labels := <[idx := Some (group_counter st)]> (group_labels st);
            group_counter := group_counter st + 1;
            group := group st;
            total_length := total_length st;
            clusters := clusters st |}
    else st.

Fixpoint scan (max_length : Z) (idx : nat) (rows : list Tagged.t)
    (st : packer) : packer :=
  match rows with
  | [] => st
  | row :: rest => scan max_length (S idx) rest (visit max_length st idx row)
  end.

(** One iteration of the [while] loop up to [group_counter += 1]. *)
Definition pass (max_length : Z) (df : list Tagged.t) (st : packer) : packer :=
  let st := {| used_fragments := used_fragments st;
               group_labels := group_labels st;
               group_counter := group_counter st;
               group := [];
               total_length := 0;
               clusters := ∅ |} in
  let st := scan max_length 0 df st in
  {| used_fragments := used_fragments st;
     group_labels := group_labels st;
     group_counter := group_counter st + 1;
     group := group st;
     total_length := total_length st;
     clusters := clusters st |}.

(** [90 + (len(used_fragments) / len(fragments)) * 5] *)
Definition packing_percent (used n : nat) : Q :=
  (90 + inject_Z (Z.of_nat used) / inject_Z (Z.of_nat n) * 5)%Q.

Record packing : Type := {
  final : packer;
  iter_counter : Z;
  packing_trace : list Q
}.

Fixpoint packing_loop (fuel : nat) (max_length : Z) (df : list Tagged.t)
    (progress : bool) (st : packer) (iter : Z) (trace : list Q)
  : res packing :=
  if (size (used_fragments st) <? List.length df)%nat then
    match fuel with
    | O => OutOfFuel
    | S fuel' =>
        let st := pass max_length df st in
        let iter := iter + 1 in
        let trace :=
          trace ++ emit progress
            (packing_percent (size (used_fragments st)) (List.length df)) in
        if Z.of_nat (List.length df) * 3 <? iter
        then Ret {| final := st; iter_counter := iter; packing_trace := trace |}
        else packing_loop fuel' max_length df progress st iter trace
    end
  else Ret {| final := st; iter_counter := iter; packing_trace := trace |}.

Definition packer_init (n : nat) : packer :=
  {| used_fragments := ∅;
     group_labels := replicate n None;
     group_counter := 0;
     group := [];
     total_length := 0;
     clusters := ∅ |}.

(** The loop of [group_fragments]: final state, number of passes and the
    progress values. *)
Definition pack (max_length : Z) (df : list Tagged.t) (progress : bool)
  : res packing :=
  packing_loop (3 * List.length df + 1) max_length df progress
               (packer_init (List.length df)) 0 [].

(** [group_labels.astype(int)]: a slot never written yields whatever the
    array held. *)
Definition astype_int (E : externals) (labels : list (option Z)) : list Z :=
  imap (fun i l => match l with Some g => g | None => np_empty E i end) labels.

Definition with_Group (df : list Tagged.t) (groups : list Z) : list Packed.t :=
  zip_with (fun r g => {| Packed.tagged := r; Packed.Group := g |}) df groups.

Definition group_fragments (E : externals) (max_length : Z)
    (df : list Tagged.t) (progress : bool) : res (list Q * list Packed.t) :=
  p ← pack max_length df progress;
  Ret (packing_trace p,
       with_Group df (astype_int E (group_labels (final p)))).

(** Indices of the rows labelled [g], and the two quantities the packer
    bounds for a group. *)
Definition has_label (g : Z) (l : option Z) : bool :=
  match l with Some g' => g' =? g | None => false end.

Definition members (g : Z) (labels : list (option Z)) : list nat :=
  map fst (filter (fun e => has_label g e.2 = true) (enumerate labels)).

Definition member_rows (g : Z) (df : list Tagged.t) (labels : list (option Z))
  : list Tagged.t :=
  map fst (filter (fun e => has_label g e.2 = true) (zip df labels)).

Definition members_length (g : Z) (df : list Tagged.t)
    (labels : list (option Z)) : Z :=
  foldr Z.add 0 (map (fun r => PyStr.len (Tagged.Sequence r))
                     (member_rows g df labels)).

(** ** [apply_aggressive_grouping] *)

(** Keys of [df.groupby("Group")], in the order the iteration yields them. *)
Definition group_keys (groups : list Z) : list Z :=
  merge_sort Z.le (remove_dups groups).

Definition sub_frame (g : Z) (df : list Packed.t) : list Packed.t :=
  filter (fun r => Packed.Group r = g) df.

Definition singleton_groups (df : list Packed.t) : list Z :=
  filter (fun g => List.length (sub_frame g df) = 1%nat)
         (group_keys (map Packed.Group df)).

(** The [for i, gid in enumerate(singleton_groups)] loop.  Python leaves
    [new] unbound until the iteration [i = 0] binds it; the value it is
    started with here is never read. *)
Fixpoint aggressive_loop (i : nat) (new : Z) (gids : list Z)
    (df : list Packed.t) : list Packed.t :=
  match gids with
  | [] => df
  | gid :: rest =>
      if (i mod 3 =? 0)%nat
      then aggressive_loop (S i) gid rest df
      else aggressive_loop (S i) new rest
             (map (fun r => if Packed.Group r =? gid
                            then Packed.set_Group r new else r) df)
  end.

Definition apply_aggressive_grouping (df1 : list Packed.t) : list Packed.t :=
  aggressive_loop 0 0 (singleton_groups df1) df1.

(** ** [replace_cut_sites_and_pad] *)

Definition cuts : list string :=
  [BsmBI; BsaI; BbsI; BspMI; BsmBI_rev; BsaI_rev; BbsI_rev; BspMI_rev].

Definition neutral_filler : string := "ATCCGATGGTC".

(** ["".join(random.choices(population, k=k))] for the draws [draw]. *)
Definition random_choices (draw : nat -> nat) (population : list string)
    (k : nat) : string :=
  PyStr.join
    (map (fun j => nth (draw j mod List.length population)%nat population
                       EmptyString)
         (seq 0 k)).

(** The [for cut in (...)] loop over the padding. *)
Definition scrub (padding : string) : string :=
  foldl (fun padding cut => PyStr.replace padding cut neutral_filler)
        padding cuts.

(** The padding branch: [new_seq] after the substitutions, [draw] the
    outcome of the random generator. *)
Definition pad (draw : nat -> nat) (new_seq : string) : string :=
  if PyStr.len new_seq <? 300 then
    let padding :=
      random_choices draw NUCL (Z.to_nat (MIN_LENGTH - PyStr.len new_seq)) in
    new_seq +:+ scrub padding
  else new_seq.

(** Loop body for one row. *)
Definition rewrite_row (draw : nat -> nat) (row : Grouped.t) : res Grouped.t :=
  new_seq ← cut_site_chain (Grouped.Sequence row);
  let new_seq := pad draw new_seq in
  Ret {| Grouped.Group := Grouped.Group row;
         Grouped.Sequence := new_seq;
         Grouped.Name := Grouped.Name row;
         Grouped.Length := PyStr.len new_seq |}.

Fixpoint rewrite_rows (E : externals) (idx : nat) (rows : list Grouped.t)
  : res (list Grouped.t) :=
  match rows with
  | [] => Ret []
  | row :: rest =>
      row' ← rewrite_row (rand_index E idx) row;
      rest' ← rewrite_rows E (S idx) rest;
      Ret (row' :: rest')
  end.

Definition replace_cut_sites_and_pad (E : externals)
    (grouped_df : list Grouped.t) : res (list Grouped.t) :=
  rewrite_rows E 0 grouped_df.

(** ** [pipeline] *)

(** [df.apply(lambda x: x.astype(str).str.upper())] *)
Definition upper_row (r : Frag.t) : Frag.t :=
  {| Frag.Name := PyStr.upper (Frag.Name r);
     Frag.Author := PyStr.upper (Frag.Author r);
     Frag.Sequence := PyStr.upper (Frag.Sequence r) |}.

Definition large (df : list Frag.t) : list Frag.t :=
  filter (fun r => 400 <= PyStr.len (Frag.Sequence r)) df.

Definition packable (df : list Frag.t) : list Frag.t :=
  filter (fun r => PyStr.len (Frag.Sequence r) < MAX_LENGTH) df.

(** [df1.groupby("Group").agg({"Sequence": "".join, "Name": list})] with the
    [Length] column added. *)
Definition aggregate (df1 : list Packed.t) : list Grouped.t :=
  map (fun g =>
         let sub := sub_frame g df1 in
         let sequence := PyStr.join (map Packed.Sequence sub) in
         {| Grouped.Group := g;
            Grouped.Sequence := sequence;
            Grouped.Name := map Packed.Name sub;
            Grouped.Length := PyStr.len sequence |})
      (group_keys (map Packed.Group df1)).

(** [grouped["Group"].max() if not grouped.empty else 0] *)
Definition initial_max_group (grouped : list Grouped.t) : Z :=
  match map Grouped.Group grouped with
  | [] => 0
  | g :: gs => foldl Z.max g gs
  end.

(** The [for _, row in df_large.iterrows()] loop. *)
Fixpoint add_back (max_group : Z) (df_large : list Frag.t)
    (grouped : list Grouped.t) : list Grouped.t :=
  match df_large with
  | [] => grouped
  | row :: rest =>
      let name := Frag.Name row in
      let frag := Frag.Sequence row in
      let max_group := max_group + 1 in
      add_back max_group rest
        (grouped ++ [ {| Grouped.Group := max_group;
                         Grouped.Sequence := frag;
                         Grouped.Name := [name];
                         Grouped.Length := PyStr.len frag |} ])
  end.

(** Everything up to the call of [replace_cut_sites_and_pad]: the table
    as assembled, and the progress values emitted so far. *)
Definition assemble (E : externals) (aggressive progress : bool)
    (table : list Frag.t) : res (list Q * list Grouped.t) :=
  let t_load := emit progress 0 ++ emit progress 2 in
  let df := map upper_row table in
  let df_large := large df in
  let df := packable df in
  let fragments := map Frag.Sequence df in
  let '(t_dist, sim) := compute_distance_matrix E fragments progress in
  let df := imap (fun i r => {| Tagged.frag := r;
                                Tagged.Cluster := affinity_labels E sim i |})
                 df in
  let t_clust := emit progress 90 in
  '(t_pack, df1) ← group_fragments E MAX_LENGTH df progress;
  let df1 := if aggressive then apply_aggressive_grouping df1 else df1 in
  let grouped := aggregate df1 in
  let max_group := initial_max_group grouped in
  let grouped := add_back max_group df_large grouped in
  Ret (t_load ++ t_dist ++ t_clust ++ t_pack, grouped).

(** The table written to the output file and the values the callback
    received. *)
Definition pipeline (E : externals) (aggressive progress : bool)
    (table : list Frag.t) : res (list Q * list Grouped.t) :=
  '(trace, grouped) ← assemble E aggressive progress table;
  grouped ← replace_cut_sites_and_pad E grouped;
  Ret (trace ++ emit progress 98 ++ emit progress 100, grouped).

(** ** [GrouperApp]: the progress bar

    Of the window only the two things [update_progress] writes are
    modelled: the variable behind the bar and the text of the label.  The
    closures [_set] that [update_progress] hands to [self.after] run one
    after the other in the main loop; [update_progress] below is the
    effect of one of them. *)

Module GrouperApp.

Record t : Type := mk {
  prog_var : Q;
  prog_label : string;
}.

(** The [if / elif] chain of [_set]. *)
Definition phase (percent : Q) : string :=
  if Qlt_le_dec percent 2 then "Loading data…"
  else if Qlt_le_dec percent 90 then "Computing distance matrix & clustering…"
  else if Qlt_le_dec percent 95 then "Grouping fragments…"
  else if Qlt_le_dec percent 98 then "Final processing…"
  else if Qlt_le_dec percent 100 then "Saving output…"
  else "Done.".

(** [f"{phase} ({percent:.0f} %)"]; [format_0f] stands for the
    conversion [:.0f] of a float. *)
Definition label_text (format_0f : Q -> string) (percent : Q) : string :=
  phase percent +:+ " (" +:+ format_0f percent +:+ " %)".

(** What [start] leaves behind once a file has been chosen. *)
Definition start : t :=
  {| prog_var := 0; prog_label := "Queued… (0 %)" |}.

(** [_set] for the value [percent]. *)
Definition update_progress (format_0f : Q -> string) (percent : Q)
    (self : t) : t :=
  let current := prog_var self in
  if Qlt_le_dec percent current then self
  else {| prog_var := percent;
          prog_label := label_text format_0f percent |}.

End GrouperApp.

(** * Vocabulary of the properties

    The definitions below are not part of the Python module: they name
    what the properties talk about. *)

(** ** Ordinal replacement *)

(** The outcome of one ordinal step of the rewriter, read off the
    positions at which [old] starts: the occurrence found second is
    spliced out, provided [s.count(old)] sees two occurrences as well
    (two occurrences that overlap count for one there). *)
Definition replace_second (old new s : string) : string :=
  match PyStr.positions old s 0 with
  | _ :: p :: _ =>
      if (2 <=? PyStr.count s old)%nat
      then PyStr.take p s +:+ new +:+ PyStr.drop (p + String.length old) s
      else s
  | _ => s
  end.

(** The chain as the specification words it: the last two steps look for
    a second occurrence of alternate A ([BbsI]) and of its reverse
    complement. *)
Definition claimed_cut_site_chain (sequence : string) : string :=
  replace_second BbsI_rev BspMI_rev
    (replace_second BbsI BspMI
       (replace_second BsmBI_rev BbsI_rev
          (replace_second BsmBI BbsI sequence))).

(** ** Padding *)


(** ** Groups of the packer *)

(** Number of slots of the label array already written. *)
Definition labelled (labels : list (option Z)) : nat :=
  List.length (filter (fun l => is_Some l) labels).

Section packer_vocabulary.

Context (max_length : Z) (df : list Tagged.t).

Implicit Types (st : packer) (labels : list (option Z)) (idx : nat) (g c : Z).

(** No two rows of group [g] carry the same cluster id. *)
Definition distinct_clusters g labels : Prop :=
  forall i j ri rj,
    i <> j -> df !! i = Some ri -> df !! j = Some rj ->
    labels !! i = Some (Some g) -> labels !! j = Some (Some g) ->
    Tagged.Cluster ri <> Tagged.Cluster rj.

(** Group [g] has at most three rows, stays within [max_length] when it
    has more than one, and mixes no two rows of one cluster. *)
Definition group_ok g labels : Prop :=
  (List.length (member_rows g df labels) <= 3)%nat
  /\ ((2 <= List.length (member_rows g df labels))%nat ->
      members_length g df labels <= max_length)
  /\ distinct_clusters g labels.

(** The set of used sequences and the label array agree. *)
Record consistent st : Prop := {
  labels_length : List.length (group_labels st) = List.length df;
  labelled_used : forall idx r g,
    df !! idx = Some r -> group_labels st !! idx = Some (Some g) ->
    Tagged.Sequence r ∈ used_fragments st;
  used_size : size (used_fragments st) = labelled (group_labels st)
}.

(** Between two passes: every group id handed out is below the counter
    and names a well-formed group. *)
Record closed st : Prop := {
  closed_consistent : consistent st;
  closed_below : forall idx g,
    group_labels st !! idx = Some (Some g) -> g < group_counter st;
  closed_groups : forall g,
    g < group_counter st -> group_ok g (group_labels st)
}.

(** During a pass: the accumulators describe the group that carries the
    current value of the counter. *)
Record open st : Prop := {
  open_consistent : consistent st;
  open_below : forall idx g,
    group_labels st !! idx = Some (Some g) -> g <= group_counter st;
  open_groups : forall g,
    g < group_counter st -> group_ok g (group_labels st);
  open_size :
    List.length (member_rows (group_counter st) df (group_labels st))
    = List.length (group st);
  open_total :
    members_length (group_counter st) df (group_labels st) = total_length st;
  open_cap : (List.length (group st) <= 3)%nat;
  open_fits :
    (1 <= List.length (group st))%nat -> total_length st <= max_length;
  open_clusters : forall idx r,
    df !! idx = Some r ->
    group_labels st !! idx = Some (Some (group_counter st)) ->
    Tagged.Cluster r ∈ clusters st;
  open_distinct : distinct_clusters (group_counter st) (group_labels st)
}.

End packer_vocabulary.

(** ** The aggressive merger *)

(** What the loop does to one group id. *)
Fixpoint relabel (i : nat) (new : Z) (gids : list Z) (g : Z) : Z :=
  match gids with
  | [] => g
  | gid :: rest =>
      if (i mod 3 =? 0)%nat
      then relabel (S i) gid rest g
      else relabel (S i) new rest (if g =? gid then new else g)
  end.

(** ** Progress traces *)

(** All values of a trace lie between [lo] and [hi]. *)
Definition within (lo hi : Q) (trace : list Q) : Prop :=
  Forall (fun v => (lo <= v <= hi)%Q) trace.

(** ** Sample inputs *)

Definition fragment (name sequence : string) (cluster : Z) : Tagged.t :=
  {| Tagged.frag := {| Frag.Name := name; Frag.Author := "X";
                       Frag.Sequence := sequence |};
     Tagged.Cluster := cluster |}.

(** Two rows with the same sequence: the second one can never be marked
    used, since the first one put their common sequence in the set. *)
Definition twin_rows : list Tagged.t :=
  [fragment "A" "ACGT" 0; fragment "B" "ACGT" 1].

Definition three_rows : list Tagged.t :=
  [fragment "A" "ACGT" 0; fragment "B" "GGG" 0; fragment "C" "TT" 1].

Definition packed (name sequence : string) (cluster group : Z) : Packed.t :=
  {| Packed.tagged := fragment name sequence cluster; Packed.Group := group |}.

(** Five singleton groups and one group of two. *)
Definition six_groups : list Packed.t :=
  [packed "A" "AC" 0 4; packed "B" "GT" 0 0; packed "C" "TT" 1 2;
   packed "D" "CA" 1 2; packed "E" "GG" 2 7; packed "F" "TA" 3 9;
   packed "G" "CC" 4 5].

(** The externals of a run in which every distance is 0, every fragment
    is a cluster of its own and the generator keeps drawing [A]. *)
Definition E0 : externals :=
  {| levenshtein := fun _ _ => 0;
     affinity_labels := fun _ i => Z.of_nat i;
     np_empty := fun _ => 0;
     rand_index := fun _ _ => 0%nat |}.

Definition small_table : list Frag.t :=
  [ {| Frag.Name := "f1"; Frag.Author := "ann"; Frag.Sequence := "acgtcgtctc" |};
    {| Frag.Name := "f2"; Frag.Author := "bob"; Frag.Sequence := "ggtacc" |} ].

(** A fragment of 450 letters: long enough to be "long", short enough to
    be "packable". *)
Definition overlap_table : list Frag.t :=
  [ {| Frag.Name := "f1"; Frag.Author := "ann";
       Frag.Sequence := PyStr.times "a" 450 |} ].

Definition overlap_row (g : Z) : Grouped.t :=
  {| Grouped.Group := g; Grouped.Sequence := PyStr.times "A" 450;
     Grouped.Name := ["F1"%string]; Grouped.Length := 450 |}.

(** No two rows that carry a label hold the same sequence. *)
Definition labelled_once (df : list Tagged.t) (labels : list (option Z)) : Prop :=
  forall i j ri rj gi gj,
    df !! i = Some ri -> df !! j = Some rj ->
    labels !! i = Some (Some gi) -> labels !! j = Some (Some gj) ->
    Tagged.Sequence ri = Tagged.Sequence rj -> i = j.

(** What the packer keeps true of its labels from one row to the next,
    besides [consistent]. *)
Record tidy (df : list Tagged.t) (st : packer) : Prop := {
  tidy_consistent : consistent df st;
  tidy_once : labelled_once df (group_labels st);
  tidy_counter : 0 <= group_counter st;
  tidy_labels : forall idx g,
    group_labels st !! idx = Some (Some g) -> 0 <= g
}.


(** One aggregated row of 300 letters without any motif. *)
Definition plain_table : list Grouped.t :=
  [ {| Grouped.Group := 0; Grouped.Sequence := PyStr.times "A" 300;
       Grouped.Name := ["F1"%string]; Grouped.Length := 7 |} ].

(** ** The progress bar over a run *)

(** The window after each of the updates [arrivals], in turn. *)
Fixpoint bar_states (format_0f : Q -> string) (arrivals : list Q)
    (self : GrouperApp.t) : list GrouperApp.t :=
  match arrivals with
  | [] => []
  | percent :: rest =>
      let self := GrouperApp.update_progress format_0f percent self in
      self :: bar_states format_0f rest self
  end.

(** The window after all of them. *)
Definition bar_after (format_0f : Q -> string) (arrivals : list Q)
    (self : GrouperApp.t) : GrouperApp.t :=
  foldl (fun self percent => GrouperApp.update_progress format_0f percent self)
        self arrivals.

(** A conversion to text for the examples: the integral part. *)
Definition floor_text (percent : Q) : string :=
  pretty (Qfloor percent).

(** The same libraries over a memory that holds other values where
    nothing was written. *)
Definition with_np_empty (E : externals) (junk : nat -> Z) : externals :=
  {| levenshtein := levenshtein E;
     affinity_labels := affinity_labels E;
     np_empty := junk;
     rand_index := rand_index E |}.

(** * Properties *)

(** ** The model at work *)

Example nth_repl_second_of_three :
  nth_repl "abXcdXefX" "X" "YY" 2 = Ret "abXcdYYefX"%string.
Proof. reflexivity. Qed.

(** With [n = 0] and no occurrence the guard lets the slices with
    [find = -1] through. *)
Example nth_repl_zeroth :
  nth_repl "abc" "x" "Y" 0 = Ret "abYabc"%string.
Proof. reflexivity. Qed.

(** Two copies of the motif that share a letter: [str.find] meets both,
    [str.split] only one, and nothing is replaced. *)
Example nth_repl_overlapping :
  nth_repl "CGTCTCGTCTC" BsmBI BbsI 2 = Ret "CGTCTCGTCTC"%string.
Proof. reflexivity. Qed.

Example split_example :
  PyStr.split "aXbXXc" "X" = Ret ["a"; "b"; ""; "c"]%string.
Proof. reflexivity. Qed.

Example replace_example : PyStr.replace "aXXXb" "XX" "q" = "aqXb"%string.
Proof. reflexivity. Qed.

Example replace_empty_example : PyStr.replace "ab" "" "-" = "-a-b-"%string.
Proof. reflexivity. Qed.

Example cut_site_chain_example :
  cut_site_chain "CGTCTCaCGTCTCbCGTCTC"
  = Ret "CGTCTCaGAAGACTbACCTGCTTA"%string.
Proof. reflexivity. Qed.

(** Two fragments of 100 letters in different clusters: one group, one
    pass. *)
Example pack_two_clusters :
  (fun p => (group_labels (final p), iter_counter p))
    <$> pack MAX_LENGTH [fragment "A" (PyStr.times "A" 100) 0;
                         fragment "B" (PyStr.times "C" 100) 1] false
  = Ret ([Some 0; Some 0], 1).
Proof. vm_compute. reflexivity. Qed.

(** A single fragment of 520 letters: a group of its own through the
    oversized branch. *)
Example pack_oversized :
  (fun p => (group_labels (final p), group_counter (final p), iter_counter p))
    <$> pack MAX_LENGTH [fragment "A" (PyStr.times "A" 520) 0] false
  = Ret ([Some 0], 2, 1).
Proof. vm_compute. reflexivity. Qed.

(** Three fragments of one cluster: three groups, which the aggressive
    merger fuses into one. *)
Example pack_one_cluster :
  (fun p => group_labels (final p))
    <$> pack MAX_LENGTH [fragment "A" (PyStr.times "A" 100) 5;
                         fragment "B" (PyStr.times "C" 100) 5;
                         fragment "C" (PyStr.times "G" 100) 5] false
  = Ret [Some 0; Some 1; Some 2]
  /\ map Packed.Group
        (apply_aggressive_grouping
           [packed "A" "A" 5 0; packed "B" "C" 5 1; packed "C" "G" 5 2])
     = [0; 0; 0].
Proof. split; vm_compute; reflexivity. Qed.

(** ** Strings *)

Section string_facts.

Implicit Types (s sub old new : string) (n k pos : nat).

(** Unfold the scanning functions one character, leaving the prefix tests
    as they are. *)
Ltac scan_step :=
  cbn [PyStr.find_at PyStr.positions PyStr.occurrences PyStr.split_go
       PyStr.replace_go String.length List.length].

Lemma length_take n s : String.length (PyStr.take n s) = (n `min` String.length s)%nat.
Proof.
  revert s; induction n as [|n IH]; intros [|c s]; simpl; auto.
Qed.

Lemma length_drop n s : String.length (PyStr.drop n s) = (String.length s - n)%nat.
Proof.
  revert s; induction n as [|n IH]; intros [|c s]; simpl; auto.
Qed.

Lemma app_cons c s1 s2 : String c s1 +:+ s2 = String c (s1 +:+ s2).
Proof. reflexivity. Qed.

Lemma length_app s1 s2 :
  String.length (s1 +:+ s2) = (String.length s1 + String.length s2)%nat.
Proof. induction s1; simpl; auto. Qed.

Lemma prefix_length sub s :
  String.prefix sub s = true -> (String.length sub <= String.length s)%nat.
Proof.
  revert s; induction sub as [|a sub IH]; intros [|c s]; simpl; try lia.
  destruct (ascii_dec a c); [|discriminate].
  intros H; apply IH in H; lia.
Qed.

Lemma prefix_empty_r sub : sub <> EmptyString -> String.prefix sub EmptyString = false.
Proof. destruct sub; simpl; congruence. Qed.

Lemma find_at_bounds sub s pos p :
  PyStr.find_at sub s pos = Some p ->
  (pos <= p /\ p + String.length sub <= pos + String.length s)%nat.
Proof.
  revert pos; induction s as [|c s IH]; intros pos; scan_step.
  - destruct (String.prefix sub EmptyString) eqn:Hp; [|discriminate].
    intros [= <-]. apply prefix_length in Hp; simpl in Hp; lia.
  - destruct (String.prefix sub (String c s)) eqn:Hp.
    + intros [= <-]. apply prefix_length in Hp; simpl in Hp; lia.
    + intros H; apply IH in H; lia.
Qed.

Lemma find_at_positions sub s pos :
  PyStr.find_at sub s pos = head (PyStr.positions sub s pos).
Proof.
  revert pos; induction s as [|c s IH]; intros pos; scan_step.
  - destruct (String.prefix sub EmptyString); reflexivity.
  - destruct (String.prefix sub (String c s)); simpl; auto.
Qed.

Lemma length_positions sub s pos :
  List.length (PyStr.positions sub s pos) = PyStr.occurrences sub s.
Proof.
  revert pos; induction s as [|c s IH]; intros pos; scan_step.
  - destruct (String.prefix sub EmptyString); reflexivity.
  - rewrite List.length_app, IH.
    destruct (String.prefix sub (String c s)); reflexivity.
Qed.

(** What follows the first position is what a search resumed one
    character later finds. *)
Lemma positions_tail sub s pos p rest :
  sub <> EmptyString ->
  PyStr.positions sub s pos = p :: rest ->
  rest = PyStr.positions sub (PyStr.drop (p - pos + 1) s) (p + 1).
Proof.
  intros Hsub; revert pos; induction s as [|c s IH]; intros pos; scan_step.
  - rewrite prefix_empty_r by done. discriminate.
  - destruct (String.prefix sub (String c s)) eqn:Hp; cbn [app].
    + intros H; injection H as <- <-.
      replace (pos - pos + 1)%nat with 1%nat by lia. simpl.
      by replace (pos + 1)%nat with (S pos) by lia.
    + intros H.
      assert (S pos <= p)%nat as Hle.
      { pose proof (find_at_positions sub s (S pos)) as Hf.
        rewrite H in Hf; simpl in Hf. apply find_at_bounds in Hf; lia. }
      apply IH in H. rewrite H.
      by replace (p - pos + 1)%nat with (S (p - S pos + 1)) by lia.
Qed.

Lemma take_drop n s : PyStr.take n s +:+ PyStr.drop n s = s.
Proof.
  revert s; induction n as [|n IH]; intros [|c s]; simpl; auto.
  rewrite app_cons. f_equal. apply IH.
Qed.

Lemma clip_in_range s (k : Z) :
  0 <= k <= PyStr.len s -> PyStr.clip s k = Z.to_nat k.
Proof.
  intros H. unfold PyStr.clip.
  destruct (Z.ltb_spec k 0); [lia|]. by rewrite Z.min_l by lia.
Qed.

(** [find] from a position inside the string. *)
Lemma find_in_range s sub k :
  (k <= String.length s)%nat ->
  PyStr.find s sub (Z.of_nat k) =
    match PyStr.find_at sub (PyStr.drop k s) k with
    | Some p => Z.of_nat p
    | None => -1
    end.
Proof.
  intros Hk. unfold PyStr.find.
  destruct (Z.ltb_spec (PyStr.len s) (Z.of_nat k)) as [H|H].
  - unfold PyStr.len in H; lia.
  - rewrite clip_in_range by (unfold PyStr.len; lia).
    by rewrite Nat2Z.id.
Qed.

Lemma find_range s sub (start : Z) :
  0 <= start ->
  PyStr.find s sub start = -1 \/
  (start <= PyStr.find s sub start <= PyStr.len s).
Proof.
  intros Hs. unfold PyStr.find.
  destruct (Z.ltb_spec (PyStr.len s) start) as [H|H]; [by left|].
  rewrite clip_in_range by lia.
  destruct (PyStr.find_at sub (PyStr.drop (Z.to_nat start) s) (Z.to_nat start))
    as [p|] eqn:Hf; [right|by left].
  apply find_at_bounds in Hf. rewrite length_drop in Hf.
  unfold PyStr.len in *. lia.
Qed.

(** [len(s.split(sep)) - 1] never exceeds the number of positions at
    which [sep] starts. *)
Lemma length_split_go sep skip s :
  (List.length (PyStr.split_go sep skip s) <= 1 + PyStr.occurrences sep s)%nat.
Proof.
  revert skip; induction s as [|c s IH]; intros skip; scan_step; [lia|].
  destruct skip as [|k].
  - destruct (String.prefix sep (String c s)); scan_step.
    + specialize (IH (String.length sep - 1)%nat). lia.
    + specialize (IH 0%nat).
      destruct (PyStr.split_go sep 0 s); simpl in *; lia.
  - specialize (IH k). lia.
Qed.

Lemma length_split_go_count sep skip s :
  List.length (PyStr.split_go sep skip s) = S (PyStr.count_go sep skip s).
Proof.
  revert skip; induction s as [|c s IH]; intros skip;
    cbn [PyStr.split_go PyStr.count_go List.length]; [done|].
  destruct skip as [|k]; [|apply IH].
  destruct (String.prefix sep (String c s)); cbn [List.length].
  - by rewrite IH.
  - specialize (IH 0%nat). by destruct (PyStr.split_go sep 0 s).
Qed.

Lemma count_nonempty s sub :
  sub <> EmptyString -> PyStr.count s sub = PyStr.count_go sub 0 s.
Proof. by destruct sub. Qed.

(** A scan that resumes behind each match meets no more occurrences than
    there are positions at which [sub] starts. *)
Lemma count_le_occurrences s sub :
  sub <> EmptyString -> (PyStr.count s sub <= PyStr.occurrences sub s)%nat.
Proof.
  intros Hne. rewrite count_nonempty by done.
  pose proof (length_split_go sub 0 s) as H.
  rewrite length_split_go_count in H. lia.
Qed.

Lemma split_nonempty s sep :
  sep <> EmptyString -> PyStr.split s sep = Ret (PyStr.split_go sep 0 s).
Proof. by destruct sep. Qed.

Lemma replace_nonempty s old new :
  old <> EmptyString -> PyStr.replace s old new = PyStr.replace_go old new 0 s.
Proof. by destruct old. Qed.

(** A replacement at least as long as its target never shortens. *)
Lemma length_replace_go old new skip s :
  (1 <= String.length old <= String.length new)%nat ->
  (skip <= String.length s)%nat ->
  (String.length s <= skip + String.length (PyStr.replace_go old new skip s))%nat.
Proof.
  intros Hlen; revert skip; induction s as [|c s IH]; intros skip Hskip;
    scan_step; cbn [String.length] in Hskip; [lia|].
  destruct skip as [|k].
  - destruct (String.prefix old (String c s)) eqn:Hp.
    + apply prefix_length in Hp; simpl in Hp.
      rewrite length_app.
      specialize (IH (String.length old - 1)%nat ltac:(lia)). lia.
    + scan_step. specialize (IH 0%nat ltac:(lia)). lia.
  - specialize (IH k ltac:(lia)). lia.
Qed.

Lemma length_replace s old new :
  old <> EmptyString ->
  (String.length old <= String.length new)%nat ->
  (String.length s <= String.length (PyStr.replace s old new))%nat.
Proof.
  intros Hne Hlen. rewrite replace_nonempty by done.
  assert (1 <= String.length old)%nat by (destruct old; simpl; [done|lia]).
  pose proof (length_replace_go old new 0 s ltac:(lia) ltac:(lia)). lia.
Qed.



End string_facts.

(** ** [nth_repl] *)

Section nth_repl_facts.

Implicit Types (s old new : string) (n find i : Z).

(** The search loop stops: each iteration moves [find] to the right or
    sets it to [-1]. *)
Lemma nth_repl_loop_returns fuel s old n find i :
  find = -1 \/ (0 <= find <= PyStr.len s /\ PyStr.len s - find < Z.of_nat fuel) ->
  exists find' i', nth_repl_loop fuel s old n find i = Ret (find', i')
                   /\ (find' = -1 \/ i' = n).
Proof.
  revert find i; induction fuel as [|fuel IH]; intros find i Hm.
  - simpl. destruct (Z.eqb_spec find (-1)) as [->|Hf]; simpl.
    + eauto.
    + destruct (Z.eqb_spec i n) as [->|Hi]; simpl; [eauto|].
      destruct Hm as [?|[? Hm]]; [done|]. lia.
  - simpl. destruct (Z.eqb_spec find (-1)) as [->|Hf]; simpl; [eauto|].
    destruct (Z.eqb_spec i n) as [->|Hi]; simpl; [eauto|].
    apply IH. destruct Hm as [?|[? Hm]]; [done|].
    destruct (find_range s old (find + 1) ltac:(lia)) as [?|?]; [by left|].
    right. lia.
Qed.

End nth_repl_facts.

Section nth_repl_results.

Implicit Types (s old new : string) (n find i : Z).

Lemma nth_repl_loop_stop fuel s old n find i :
  find = -1 \/ i = n -> nth_repl_loop fuel s old n find i = Ret (find, i).
Proof.
  intros H. destruct fuel; simpl;
    destruct (Z.eqb_spec find (-1)), (Z.eqb_spec i n); simpl; auto; lia.
Qed.

Lemma nth_repl_loop_step fuel s old n find i :
  find <> -1 -> i <> n ->
  nth_repl_loop (S fuel) s old n find i =
  nth_repl_loop fuel s old n (PyStr.find s old (find + 1)) (i + 1).
Proof.
  intros Hf Hi. simpl.
  destruct (Z.eqb_spec find (-1)), (Z.eqb_spec i n); simpl; auto; lia.
Qed.

Lemma nth_repl_loop_total s old n :
  let find := PyStr.find s old 0 in
  exists find' i',
    nth_repl_loop (S (String.length s)) s old n find
                  (if find =? -1 then 0 else 1) = Ret (find', i')
    /\ (find' = -1 \/ i' = n).
Proof.
  intros find. apply nth_repl_loop_returns.
  destruct (find_range s old 0 ltac:(lia)) as [?|?]; [by left|right].
  fold find in H. unfold PyStr.len in *. lia.
Qed.

(** [nth_repl] always returns for a non-empty needle, and it returns the
    haystack whenever the needle starts at fewer than [n] positions. *)
Lemma nth_repl_unchanged s old new n :
  old <> EmptyString ->
  Z.of_nat (PyStr.count s old) < n ->
  nth_repl s old new n = Ret s.
Proof.
  intros Hne Hocc. rewrite count_nonempty in Hocc by done. unfold nth_repl.
  destruct (nth_repl_loop_total s old n) as (find' & i' & -> & _).
  cbn [mbind res_bind].
  destruct (Z.eqb_spec i' n) as [->|]; [|done].
  rewrite split_nonempty by done. cbn [mbind res_bind].
  rewrite length_split_go_count.
  destruct (Z.leb_spec n (Z.of_nat (S (PyStr.count_go old 0 s)) - 1));
    [lia|done].
Qed.

End nth_repl_results.





Lemma nth_repl_second s old new :
  old <> EmptyString -> nth_repl s old new 2 = Ret (replace_second old new s).
Proof.
  intros Hne. unfold nth_repl, replace_second.
  change 0 with (Z.of_nat 0). rewrite find_in_range by lia.
  cbn [PyStr.drop]. rewrite find_at_positions.
  destruct (PyStr.positions old s 0) as [|p1 rest] eqn:Hpos; cbn [head].
  { by rewrite nth_repl_loop_stop by (by left). }
  assert (p1 + String.length old <= String.length s)%nat as Hp1.
  { pose proof (find_at_positions old s 0) as Hf. rewrite Hpos in Hf.
    apply find_at_bounds in Hf. lia. }
  assert (1 <= String.length old)%nat as Hold
    by (destruct old; simpl; [done|lia]).
  destruct (Z.eqb_spec (Z.of_nat p1) (-1)); [lia|].
  rewrite nth_repl_loop_step by lia.
  replace (Z.of_nat p1 + 1) with (Z.of_nat (p1 + 1)) by lia.
  rewrite find_in_range by lia. rewrite find_at_positions.
  apply positions_tail in Hpos as Hrest; [|done].
  rewrite Nat.sub_0_r in Hrest. rewrite <- Hrest.
  rewrite nth_repl_loop_stop by (by right).
  cbn [mbind res_bind]. change (1 + 1 =? 2) with true. cbv iota.
  rewrite split_nonempty by done. cbn [mbind res_bind].
  pose proof (length_split_go old 0 s) as Hsplit.
  rewrite <- (length_positions old s 0), Hpos in Hsplit.
  pose proof (length_split_go_count old 0 s) as Hcount.
  rewrite <- (count_nonempty s old Hne) in Hcount.
  destruct rest as [|p2 rest']; cbn [head].
  - simpl in Hsplit.
    destruct (Z.leb_spec (1 + 1) (Z.of_nat (List.length (PyStr.split_go old 0 s)) - 1));
      [lia|done].
  - assert (p2 + String.length old <= String.length s)%nat as Hp2.
    { pose proof (find_at_positions old (PyStr.drop (p1 + 1) s) (p1 + 1)) as Hf.
      rewrite <- Hrest in Hf. apply find_at_bounds in Hf.
      rewrite length_drop in Hf. lia. }
    destruct (Z.leb_spec (1 + 1) (Z.of_nat (List.length (PyStr.split_go old 0 s)) - 1)),
             (Nat.leb_spec 2 (PyStr.count s old));
      try lia; [|done].
    unfold PyStr.slice_to, PyStr.slice_from.
    rewrite !clip_in_range by (unfold PyStr.len; lia).
    rewrite Nat2Z.id. unfold PyStr.len.
    by replace (Z.to_nat (Z.of_nat p2 + Z.of_nat (String.length old)))
      with (p2 + String.length old)%nat by lia.
Qed.

Lemma replace_second_unchanged old new s :
  (PyStr.occurrences old s < 2)%nat -> replace_second old new s = s.
Proof.
  intros H. unfold replace_second.
  rewrite <- (length_positions old s 0) in H.
  by destruct (PyStr.positions old s 0) as [|? [|? ?]]; simpl in H; try lia.
Qed.

(** C6, as stated: an empty needle found at fewer than [n] positions makes
    [nth_repl] raise instead of returning the haystack. *)
Lemma nth_repl_empty_needle_raises :
  PyStr.count "" "" = 1%nat
  /\ PyStr.occurrences "" "" = 1%nat
  /\ nth_repl "" "" "x" 2 = Raise ValueError
  /\ ~ (forall (s t r : string) (n : Z),
          Z.of_nat (PyStr.occurrences t s) < n -> nth_repl s t r n = Ret s).
Proof.
  split_and!; [done..|].
  intros H. specialize (H ""%string ""%string "x"%string 2).
  vm_compute in H. by specialize (H eq_refl).
Qed.

(** C6, amended: for a non-empty needle [t], [nth_repl s t r n] returns
    [s] unchanged whenever [t] occurs fewer than [n] times in [s], be it
    counted as [s.count(t)] does or by the positions at which [t] starts;
    in particular an ordinal step ([n = 2]) is the identity on a sequence
    with fewer than two occurrences of its target. *)
Theorem nth_repl_fewer_occurrences (s t r : string) (n : Z) :
  t <> EmptyString ->
  Z.of_nat (PyStr.count s t) < n \/ Z.of_nat (PyStr.occurrences t s) < n ->
  nth_repl s t r n = Ret s.
Proof.
  intros Hne Hfew. apply nth_repl_unchanged; [done|].
  pose proof (count_le_occurrences s t Hne). lia.
Qed.

Lemma nth_repl_fewer_occurrences_witness :
  nth_repl "AACGTCTCAA" BsmBI BbsI 2 = Ret "AACGTCTCAA"%string.
Proof.
  apply (nth_repl_fewer_occurrences "AACGTCTCAA" BsmBI BbsI 2).
  - discriminate.
  - right. vm_compute. reflexivity.
Defined.

Lemma cut_site_chain_replace_second (sequence : string) :
  cut_site_chain sequence =
    Ret (replace_second BsmBI_rev BspMI_rev
           (replace_second BsmBI BspMI
              (replace_second BsmBI_rev BbsI_rev
                 (replace_second BsmBI BbsI sequence)))).
Proof.
  unfold cut_site_chain.
  rewrite nth_repl_second by discriminate. cbn [mbind res_bind].
  rewrite nth_repl_second by discriminate. cbn [mbind res_bind].
  rewrite nth_repl_second by discriminate. cbn [mbind res_bind].
  by rewrite nth_repl_second by discriminate.
Qed.

(** C7, as stated: on a sequence holding alternate A twice the code
    changes nothing, while the chain of the specification would turn the
    second copy into alternate B; with three copies of the primary motif
    the code rewrites the third one, the specification's chain does not. *)
Lemma cut_site_chain_not_as_claimed :
  cut_site_chain "GAAGACTGAAGACT" = Ret "GAAGACTGAAGACT"%string
  /\ cut_site_chain "GAAGACTGAAGACT"
     <> Ret (claimed_cut_site_chain "GAAGACTGAAGACT")
  /\ cut_site_chain "CGTCTCACGTCTCACGTCTC"
     <> Ret (claimed_cut_site_chain "CGTCTCACGTCTCACGTCTC").
Proof. vm_compute. repeat split; discriminate. Qed.

(** C7, amended: the rewriter applies exactly four ordinal substitutions
    in a fixed chain, each on the second occurrence of its target: the
    primary motif ([BsmBI]) and its reverse complement go to alternate A
    ([BbsI]) and its reverse complement, then the primary motif's
    remaining second occurrence and its reverse complement's go to
    alternate B ([BspMI]) and its reverse complement; a step whose target
    has no second occurrence leaves the sequence unchanged. *)
Theorem cut_site_chain_steps (sequence : string) :
  cut_site_chain sequence =
    Ret (replace_second BsmBI_rev BspMI_rev
           (replace_second BsmBI BspMI
              (replace_second BsmBI_rev BbsI_rev
                 (replace_second BsmBI BbsI sequence))))
  /\ (forall old new s : string,
         (PyStr.occurrences old s < 2)%nat -> replace_second old new s = s).
Proof.
  split; [apply cut_site_chain_replace_second|].
  intros; by apply replace_second_unchanged.
Qed.

Lemma cut_site_chain_steps_witness :
  cut_site_chain "CGTCTCACGTCTCACGTCTC" = Ret "CGTCTCAGAAGACTAACCTGCTTA"%string
  /\ replace_second BsmBI BbsI "AACGTCTCAA" = "AACGTCTCAA"%string.
Proof.
  destruct (cut_site_chain_steps "CGTCTCACGTCTCACGTCTC") as [Hc Hid].
  split.
  - rewrite Hc. vm_compute. reflexivity.
  - apply Hid. vm_compute. lia.
Defined.

(** ** Padding *)

Section padding.

Implicit Types (padding new_seq : string) (draw : nat -> nat).

Lemma length_join_units {A : Type} (f : A -> string) (l : list A) :
  (forall x, String.length (f x) = 1%nat) ->
  String.length (PyStr.join (map f l)) = List.length l.
Proof.
  intros Hf. induction l as [|x l IH]; [done|].
  cbn [map PyStr.join fold_right List.length].
  fold (PyStr.join (map f l)). by rewrite length_app, Hf, IH.
Qed.

Lemma length_nucleotide (i : nat) :
  (i < 4)%nat -> String.length (nth i NUCL EmptyString) = 1%nat.
Proof. intros H. by do 4 (destruct i as [|i]; [done|]); lia. Qed.

(** The generator hands back exactly [k] letters. *)
Lemma length_random_choices draw k :
  String.length (random_choices draw NUCL k) = k.
Proof.
  unfold random_choices. rewrite length_join_units.
  - by rewrite length_seq.
  - intros j. apply length_nucleotide.
    change (List.length NUCL) with 4%nat. apply Nat.mod_upper_bound. lia.
Qed.

Lemma length_scrub_from (cs : list string) padding :
  Forall (fun cut => cut <> EmptyString
                     /\ (String.length cut <= String.length neutral_filler)%nat) cs ->
  (String.length padding <=
   String.length
     (foldl (fun padding cut => PyStr.replace padding cut neutral_filler)
            padding cs))%nat.
Proof.
  intros H; revert padding; induction H as [|cut cs [Hne Hlen] _ IH];
    intros padding; cbn [foldl]; [lia|].
  etrans; [|apply IH]. by apply length_replace.
Qed.

Lemma cuts_shorter_than_filler :
  Forall (fun cut => cut <> EmptyString
                     /\ (String.length cut <= String.length neutral_filler)%nat) cuts.
Proof. repeat constructor; try discriminate; vm_compute; lia. Qed.

(** Scrubbing never shortens the filler. *)
Lemma length_scrub padding :
  (String.length padding <= String.length (scrub padding))%nat.
Proof. apply length_scrub_from, cuts_shorter_than_filler. Qed.



End padding.






(** ** The group packer *)

(** *** Rows of a group *)

Lemma has_label_true g l : has_label g l = true <-> l = Some g.
Proof.
  destruct l as [g'|]; simpl; [|done].
  rewrite Z.eqb_eq. split; [by intros ->|by intros [= ->]].
Qed.

Lemma sum_app (l1 l2 : list Z) :
  foldr Z.add 0 (l1 ++ l2) = foldr Z.add 0 l1 + foldr Z.add 0 l2.
Proof. induction l1 as [|x l1 IH]; simpl; lia. Qed.

Lemma elem_of_member_rows g df labels r :
  r ∈ member_rows g df labels <->
  exists idx, df !! idx = Some r /\ labels !! idx = Some (Some g).
Proof.
  unfold member_rows. rewrite list_elem_of_fmap. split.
  - intros ([r' l] & -> & [Hl Hin]%list_elem_of_filter).
    apply elem_of_lookup_zip_with in Hin as (idx & r'' & l' & [= <- <-] & ? & ?).
    apply has_label_true in Hl; simpl in Hl; subst. eauto.
  - intros (idx & Hr & Hl). exists (r, Some g). split; [done|].
    apply list_elem_of_filter. split; [by apply has_label_true|].
    apply elem_of_lookup_zip_with. eauto 6.
Qed.

Lemma member_rows_nil g df labels :
  (forall idx, labels !! idx <> Some (Some g)) -> member_rows g df labels = [].
Proof.
  intros H. apply elem_of_nil_inv. intros r (idx & _ & Hl)%elem_of_member_rows.
  by apply (H idx).
Qed.

(** Writing label [c] into a free slot adds the row to group [c] and to
    no other group. *)
Lemma member_rows_insert g c df labels idx r :
  df !! idx = Some r -> labels !! idx = Some None ->
  exists l1 l2,
    member_rows g df labels = l1 ++ l2 /\
    member_rows g df (<[idx := Some c]> labels) =
      l1 ++ (if c =? g then [r] else []) ++ l2.
Proof.
  unfold member_rows.
  revert labels idx; induction df as [|r0 df IH]; intros [|l0 labels] [|idx];
    try done; simpl.
  - intros [= ->] [= ->].
    exists [], ((filter (λ e, has_label g e.2 = true) (zip df labels)).*1).
    rewrite !filter_cons. simpl.
    split; [done|]. destruct (c =? g); by case_decide.
  - intros Hr Hl. destruct (IH labels idx Hr Hl) as (l1 & l2 & E1 & E2).
    rewrite !filter_cons. simpl. case_decide.
    + exists (r0 :: l1), l2. simpl. split; f_equal; done.
    + by exists l1, l2.
Qed.

Lemma length_member_rows_insert g c df labels idx r :
  df !! idx = Some r -> labels !! idx = Some None ->
  List.length (member_rows g df (<[idx := Some c]> labels)) =
  (List.length (member_rows g df labels) + if (c =? g)%Z then 1 else 0)%nat.
Proof.
  intros Hr Hl.
  destruct (member_rows_insert g c df labels idx r Hr Hl) as (l1 & l2 & -> & ->).
  rewrite !List.length_app. destruct (c =? g); simpl; lia.
Qed.

Lemma members_length_insert g c df labels idx r :
  df !! idx = Some r -> labels !! idx = Some None ->
  members_length g df (<[idx := Some c]> labels) =
  members_length g df labels
  + if c =? g then PyStr.len (Tagged.Sequence r) else 0.
Proof.
  intros Hr Hl. unfold members_length.
  destruct (member_rows_insert g c df labels idx r Hr Hl) as (l1 & l2 & -> & ->).
  rewrite !map_app, !sum_app. destruct (c =? g); simpl; lia.
Qed.



Lemma labelled_insert labels idx c :
  labels !! idx = Some None ->
  labelled (<[idx := Some c]> labels) = S (labelled labels).
Proof.
  unfold labelled. revert idx; induction labels as [|l labels IH];
    intros [|idx]; try done; cbn [list_insert insert]; rewrite !filter_cons.
  - intros [= ->]. rewrite decide_True by eauto.
    rewrite decide_False by (by intros [? [=]]). done.
  - intros H. simpl. case_decide; simpl; by rewrite IH.
Qed.

Lemma labelled_le labels : (labelled labels <= List.length labels)%nat.
Proof. apply length_filter. Qed.

Lemma labelled_full labels idx :
  labelled labels = List.length labels -> (idx < List.length labels)%nat ->
  exists g, labels !! idx = Some (Some g).
Proof.
  unfold labelled. revert idx; induction labels as [|l labels IH];
    intros idx; simpl; [lia|].
  rewrite filter_cons. pose proof (labelled_le labels) as Hle.
  unfold labelled in Hle. case_decide as Hl; simpl.
  - intros [= H] Hidx. destruct idx as [|idx].
    + destruct Hl as [g ->]. by exists g.
    + apply IH; [done|lia].
  - lia.
Qed.

(** *** Invariants of the packing loop *)

Section packer_invariants.

Context (max_length : Z) (df : list Tagged.t).

Implicit Types (st : packer) (labels : list (option Z)) (idx : nat) (g c : Z).











Lemma free_slot st idx row :
  consistent df st -> df !! idx = Some row ->
  Tagged.Sequence row ∉ used_fragments st ->
  group_labels st !! idx = Some None.
Proof.
  intros [Hlen Hused _] Hrow Hfree.
  assert (idx < List.length (group_labels st))%nat as Hlt
    by (rewrite Hlen; by eapply lookup_lt_Some).
  apply lookup_lt_is_Some_2 in Hlt as [[g|] Hl]; [|done].
  destruct Hfree. eauto.
Qed.

Lemma consistent_mark st st' idx row c :
  consistent df st -> df !! idx = Some row ->
  Tagged.Sequence row ∉ used_fragments st ->
  used_fragments st' = used_fragments st ∪ {[Tagged.Sequence row]} ->
  group_labels st' = <[idx := Some c]> (group_labels st) ->
  consistent df st'.
Proof.
  intros Hc Hrow Hfree Hu Hl.
  pose proof (free_slot st idx row Hc Hrow Hfree) as Hnone.
  destruct Hc as [Hlen Hused Hsize]. split.
  - by rewrite Hl, length_insert.
  - intros i r g Hr. rewrite Hl, Hu. destruct (decide (i = idx)) as [->|Hne].
    + intros _. rewrite Hrow in Hr. injection Hr as <-.
      by apply elem_of_union_r, elem_of_singleton.
    + rewrite list_lookup_insert_ne by done. intros H.
      apply elem_of_union_l. eauto.
  - rewrite Hl, Hu, labelled_insert by done.
    rewrite size_union by (by apply disjoint_singleton_r).
    rewrite size_singleton. lia.
Qed.

Lemma distinct_clusters_insert_other g c labels idx :
  c <> g -> distinct_clusters df g labels ->
  distinct_clusters df g (<[idx := Some c]> labels).
Proof.
  intros Hne Hd i j ri rj Hij Hi Hj Hli Hlj.
  destruct (decide (idx = i)) as [->|?].
  { apply lookup_lt_Some in Hli as Hlt. rewrite length_insert in Hlt.
    rewrite list_lookup_insert_eq in Hli by done. congruence. }
  destruct (decide (idx = j)) as [->|?].
  { apply lookup_lt_Some in Hlj as Hlt. rewrite length_insert in Hlt.
    rewrite list_lookup_insert_eq in Hlj by done. congruence. }
  rewrite list_lookup_insert_ne in Hli, Hlj by done. eauto.
Qed.

Lemma group_ok_insert_other g c labels idx row :
  c <> g -> df !! idx = Some row -> labels !! idx = Some None ->
  group_ok max_length df g labels -> group_ok max_length df g (<[idx := Some c]> labels).
Proof.
  intros Hne Hrow Hnone (Hsize & Hsum & Hd). unfold group_ok.
  rewrite (length_member_rows_insert g c df labels idx row) by done.
  rewrite (members_length_insert g c df labels idx row) by done.
  destruct (Z.eqb_spec c g); [done|].
  rewrite Nat.add_0_r, Z.add_0_r.
  split_and!; [done..|]. by apply distinct_clusters_insert_other.
Qed.

Lemma no_member_no_label g labels idx r :
  List.length (member_rows g df labels) = 0%nat ->
  df !! idx = Some r -> labels !! idx <> Some (Some g).
Proof.
  intros Hz Hr Hl.
  assert (r ∈ member_rows g df labels) as Hin
    by (apply elem_of_member_rows; eauto).
  destruct (member_rows g df labels); [by apply elem_of_nil in Hin|done].
Qed.

Lemma lookup_insert_label labels idx i c g :
  <[idx := Some c]> labels !! i = Some (Some g) ->
  (i = idx /\ g = c) \/ (i <> idx /\ labels !! i = Some (Some g)).
Proof.
  intros H. destruct (decide (idx = i)) as [->|Hne].
  - apply lookup_lt_Some in H as Hlt. rewrite length_insert in Hlt.
    rewrite list_lookup_insert_eq in H by done. left. by injection H as ->.
  - rewrite list_lookup_insert_ne in H by done. right. auto.
Qed.

Lemma group_ok_unlabelled g labels :
  (forall i, labels !! i <> Some (Some g)) -> group_ok max_length df g labels.
Proof.
  intros Hnone. unfold group_ok, members_length.
  rewrite member_rows_nil by done.
  split_and!; simpl; [lia..|].
  intros i j ri rj _ _ _ H. by apply Hnone in H.
Qed.

(** The body of the scan keeps the invariant of the pass. *)
Lemma visit_open st idx row :
  df !! idx = Some row -> open max_length df st -> open max_length df (visit max_length st idx row).
Proof.
  intros Hrow Hopen. unfold visit.
  case_bool_decide as Hused; [done|].
  pose proof (free_slot st idx row (open_consistent max_length df st Hopen) Hrow Hused) as Hnone.
  destruct Hopen as [Hc Hbelow Hgroups Hsize Htotal Hcap Hfits Hclusters Hdistinct].
  destruct ((List.length (group st) <? 3)%nat
            && (total_length st + PyStr.len (Tagged.Sequence row) <=? max_length)
            && negb (bool_decide (Tagged.Cluster row ∈ clusters st))) eqn:Haccept.
  - (* the row joins the regular group *)
    apply andb_prop in Haccept as [[Hroom Hfit]%andb_prop Hfresh].
    apply Nat.ltb_lt in Hroom. apply Z.leb_le in Hfit.
    apply negb_true_iff, bool_decide_eq_false in Hfresh.
    split; cbn [used_fragments group_labels group_counter group total_length clusters].
    + by eapply consistent_mark.
    + intros i g [[-> ->]|[_ H]]%lookup_insert_label; [lia|eauto].
    + intros g Hg.
      apply (group_ok_insert_other g _ _ idx row); [lia|done|done|auto].
    + rewrite (length_member_rows_insert _ _ _ _ _ row) by done.
      rewrite Z.eqb_refl, List.length_app, Hsize. done.
    + rewrite (members_length_insert _ _ _ _ _ row) by done.
      rewrite Z.eqb_refl, Htotal. done.
    + rewrite List.length_app. simpl. lia.
    + done.
    + intros i r Hr [[-> _]|[_ H]]%lookup_insert_label.
      * rewrite Hrow in Hr. injection Hr as <-.
        by apply elem_of_union_r, elem_of_singleton.
      * apply elem_of_union_l. eauto.
    + intros i j ri rj Hij Hi Hj
        [[-> _]|[? Hli]]%lookup_insert_label
        [[-> _]|[? Hlj]]%lookup_insert_label; [done| | |by eauto].
      * rewrite Hrow in Hi. injection Hi as <-.
        intros Heq. apply Hfresh. rewrite Heq. eauto.
      * rewrite Hrow in Hj. injection Hj as <-.
        intros Heq. apply Hfresh. rewrite <- Heq. eauto.
  - destruct ((List.length (group st) =? 0)%nat
              && (500 <=? PyStr.len (Tagged.Sequence row))) eqn:Hover; [|done].
    (* an oversized row gets a group of its own *)
    apply andb_prop in Hover as [Hempty _]. apply Nat.eqb_eq in Hempty.
    rewrite Hempty in Hsize.
    assert (forall i, group_labels st !! i <> Some (Some (group_counter st + 1)))
      as Hnext by (intros i H%Hbelow; lia).
    split; cbn [used_fragments group_labels group_counter group total_length clusters].
    + by eapply consistent_mark.
    + intros i g [[-> ->]|[_ H%Hbelow]]%lookup_insert_label; lia.
    + intros g Hg. destruct (decide (g = group_counter st)) as [->|Hne].
      * unfold group_ok.
        rewrite (length_member_rows_insert _ _ _ _ _ row) by done.
        rewrite Z.eqb_refl, Hsize. split_and!; [simpl; lia..|].
        intros i j ri rj Hij Hi Hj
          [[-> _]|[? Hli]]%lookup_insert_label
          [[-> _]|[? Hlj]]%lookup_insert_label; [done|..];
          by eapply no_member_no_label in Hsize.
      * apply (group_ok_insert_other g _ _ idx row); [lia|done|done|].
        apply Hgroups. lia.
    + rewrite (length_member_rows_insert _ _ _ _ _ row) by done.
      destruct (Z.eqb_spec (group_counter st) (group_counter st + 1)); [lia|].
      by rewrite member_rows_nil, Hempty.
    + rewrite (members_length_insert _ _ _ _ _ row) by done.
      destruct (Z.eqb_spec (group_counter st) (group_counter st + 1)); [lia|].
      unfold members_length in *. rewrite member_rows_nil by done.
      destruct (member_rows (group_counter st) df (group_labels st)); [|done].
      simpl in *. lia.
    + done.
    + done.
    + intros i r Hr [[_ ?]|[_ H]]%lookup_insert_label; [lia|].
      by apply Hnext in H.
    + intros i j ri rj Hij Hi Hj [[_ ?]|[_ H]]%lookup_insert_label; [lia|].
      by apply Hnext in H.
Qed.

Lemma scan_open rows idx st :
  (forall k r, rows !! k = Some r -> df !! (idx + k)%nat = Some r) ->
  open max_length df st -> open max_length df (scan max_length idx rows st).
Proof.
  revert idx st; induction rows as [|row rows IH]; intros idx st Hrows Hopen;
    cbn [scan]; [done|].
  apply IH.
  - intros k r Hk. replace (S idx + k)%nat with (idx + S k)%nat by lia.
    by apply Hrows.
  - apply visit_open; [|done].
    rewrite <- (Nat.add_0_r idx). by apply Hrows.
Qed.

(** A pass starts from a closed state and ends in one. *)
Lemma pass_closed st : closed max_length df st -> closed max_length df (pass max_length df st).
Proof.
  intros [Hc Hbelow Hgroups]. unfold pass.
  match goal with |- context [scan _ _ _ ?s] => set (st0 := s) end.
  assert (forall i, group_labels st !! i <> Some (Some (group_counter st)))
    as Hnone by (intros i H%Hbelow; lia).
  assert (open max_length df st0) as Hopen.
  { split; subst st0;
      cbn [used_fragments group_labels group_counter group total_length clusters].
    - by destruct Hc.
    - intros i g H%Hbelow. lia.
    - done.
    - by rewrite member_rows_nil.
    - unfold members_length. by rewrite member_rows_nil.
    - simpl. lia.
    - simpl. lia.
    - intros i r _ H. by apply Hnone in H.
    - intros i j ri rj _ _ _ H. by apply Hnone in H. }
  apply (scan_open df 0) in Hopen; [|done].
  destruct Hopen as [Hc' Hbelow' Hgroups' Hsize Htotal Hcap Hfits Hclusters Hdistinct].
  split; cbn [used_fragments group_labels group_counter].
  - destruct Hc'. by split.
  - intros i g H%Hbelow'. lia.
  - intros g Hg.
    destruct (decide (g = group_counter (scan max_length 0 df st0))) as [->|Hne].
    + unfold group_ok. rewrite Hsize, Htotal. split_and!; [done| |done].
      intros H. apply Hfits. lia.
    + apply Hgroups'. lia.
Qed.

Lemma init_closed : closed max_length df (packer_init (List.length df)).
Proof.
  split; [split|..]; cbn [packer_init used_fragments group_labels group_counter].
  - by rewrite length_replicate.
  - intros idx r g _ [[=] _]%lookup_replicate.
  - rewrite size_empty. unfold labelled.
    induction (List.length df) as [|k IH]; simpl; [done|].
    rewrite filter_cons_False by (by intros [? [=]]). done.
  - intros idx g [[=] _]%lookup_replicate.
  - intros g _. apply group_ok_unlabelled.
    by intros i [[=] _]%lookup_replicate.
Qed.


End packer_invariants.

(** *** Progress values *)

Section percentages.

Local Open Scope Q_scope.

Lemma fraction_nonneg (a n : nat) :
  0 <= inject_Z (Z.of_nat a) / inject_Z (Z.of_nat n).
Proof.
  apply Qmult_le_0_compat.
  - change 0 with (inject_Z 0). rewrite <- Zle_Qle. lia.
  - apply Qinv_le_0_compat. change 0 with (inject_Z 0). rewrite <- Zle_Qle. lia.
Qed.

Lemma fraction_mono (a b n : nat) :
  (a <= b)%nat ->
  inject_Z (Z.of_nat a) / inject_Z (Z.of_nat n)
  <= inject_Z (Z.of_nat b) / inject_Z (Z.of_nat n).
Proof.
  intros H. apply Qmult_le_compat_r.
  - rewrite <- Zle_Qle. lia.
  - apply Qinv_le_0_compat. change 0 with (inject_Z 0). rewrite <- Zle_Qle. lia.
Qed.

Lemma fraction_le_1 (a n : nat) :
  (a <= n)%nat -> inject_Z (Z.of_nat a) / inject_Z (Z.of_nat n) <= 1.
Proof.
  intros H. destruct n as [|n].
  - replace a with 0%nat by lia. vm_compute. discriminate.
  - apply Qle_shift_div_r.
    + change 0 with (inject_Z 0). rewrite <- Zlt_Qlt. lia.
    + rewrite Qmult_1_l. rewrite <- Zle_Qle. lia.
Qed.

Lemma distance_percent_mono (i j n : nat) :
  (i <= j)%nat -> distance_percent i n <= distance_percent j n.
Proof.
  intros H. unfold distance_percent.
  pose proof (fraction_mono i j n H). lra.
Qed.

Lemma distance_percent_range (i n : nat) :
  (i <= n)%nat -> 2 <= distance_percent i n <= 82.
Proof.
  intros H. unfold distance_percent.
  pose proof (fraction_nonneg i n). pose proof (fraction_le_1 i n H). lra.
Qed.

Lemma packing_percent_mono (u v n : nat) :
  (u <= v)%nat -> packing_percent u n <= packing_percent v n.
Proof.
  intros H. unfold packing_percent.
  pose proof (fraction_mono u v n H). lra.
Qed.

Lemma packing_percent_range (u n : nat) :
  (u <= n)%nat -> 90 <= packing_percent u n <= 95.
Proof.
  intros H. unfold packing_percent.
  pose proof (fraction_nonneg u n). pose proof (fraction_le_1 u n H). lra.
Qed.



Lemma within_weaken lo hi lo' hi' trace :
  lo' <= lo -> hi <= hi' -> within lo hi trace -> within lo' hi' trace.
Proof.
  intros Hlo Hhi H. eapply Forall_impl; [exact H|].
  intros v [? ?]. simpl. split; lra.
Qed.

Lemma within_emit lo hi progress v :
  lo <= v <= hi -> within lo hi (emit progress v).
Proof. intros H. destruct progress; simpl; [by constructor|constructor]. Qed.

Lemma sorted_emit progress v : StronglySorted Qle (emit progress v).
Proof. destruct progress; repeat constructor. Qed.

(** Two sorted stretches, the first below [mid] and the second above
    it, make a sorted trace. *)
Lemma sorted_app lo mid hi t1 t2 :
  lo <= mid -> mid <= hi ->
  StronglySorted Qle t1 -> within lo mid t1 ->
  StronglySorted Qle t2 -> within mid hi t2 ->
  StronglySorted Qle (t1 ++ t2) /\ within lo hi (t1 ++ t2).
Proof.
  intros Hlm Hmh S1 W1 S2 W2. split.
  - induction S1 as [|v t1 S1 IH Hv]; [done|].
    apply Forall_cons in W1 as [[? ?] W1]. simpl. constructor.
    + by apply IH.
    + apply Forall_app. split; [done|].
      eapply Forall_impl; [exact W2|]. intros w [? ?]. simpl in *. lra.
  - apply Forall_app. split.
    + eapply within_weaken; [| |exact W1]; lra.
    + eapply within_weaken; [| |exact W2]; lra.
Qed.

End percentages.

(** *** The loop as a whole *)

Section packing_loop_facts.

Context (max_length : Z) (df : list Tagged.t) (progress : bool).

Implicit Types (st : packer) (idx : nat) (g : Z).

Abbreviation n := (List.length df).
Abbreviation passes k st := (Nat.iter k (pass max_length df) st).

Lemma visit_used_mono st idx row :
  used_fragments st ⊆ used_fragments (visit max_length st idx row).
Proof.
  unfold visit. case_bool_decide; [done|].
  repeat (match goal with |- context [if ?b then _ else _] => destruct b end);
    cbn [used_fragments]; set_solver.
Qed.

Lemma scan_used_mono rows idx st :
  used_fragments st ⊆ used_fragments (scan max_length idx rows st).
Proof.
  revert idx st; induction rows as [|row rows IH]; intros idx st; cbn [scan];
    [done|].
  etrans; [apply (visit_used_mono st idx row)|apply IH].
Qed.

Lemma pass_used_mono st :
  used_fragments st ⊆ used_fragments (pass max_length df st).
Proof.
  unfold pass. cbn [used_fragments].
  etrans; [|apply scan_used_mono]. done.
Qed.

Lemma closed_used_le st : closed max_length df st -> (size (used_fragments st) <= n)%nat.
Proof.
  intros [[Hlen _ Hsize] _ _]. rewrite Hsize, <- Hlen. apply labelled_le.
Qed.

(** A label, once written, stays. *)
Lemma visit_keeps_label st idx row i g :
  consistent df st -> df !! idx = Some row ->
  group_labels st !! i = Some (Some g) ->
  group_labels (visit max_length st idx row) !! i = Some (Some g).
Proof.
  intros Hc Hrow Hl. unfold visit. case_bool_decide as Hused; [done|].
  pose proof (free_slot df st idx row Hc Hrow Hused) as Hnone.
  assert (idx <> i) by congruence.
  repeat (match goal with |- context [if ?b then _ else _] => destruct b end);
    cbn [group_labels]; by rewrite ?list_lookup_insert_ne.
Qed.

Lemma scan_keeps_label rows idx st i g :
  (forall k r, rows !! k = Some r -> df !! (idx + k)%nat = Some r) ->
  open max_length df st ->
  group_labels st !! i = Some (Some g) ->
  group_labels (scan max_length idx rows st) !! i = Some (Some g).
Proof.
  revert idx st; induction rows as [|row rows IH]; intros idx st Hrows Hopen Hl;
    cbn [scan]; [done|].
  assert (df !! idx = Some row) as Hrow
    by (rewrite <- (Nat.add_0_r idx); by apply Hrows).
  apply IH.
  - intros k r Hk. replace (S idx + k)%nat with (idx + S k)%nat by lia.
    by apply Hrows.
  - by apply visit_open.
  - apply visit_keeps_label; [by destruct Hopen|done..].
Qed.

Lemma pass_keeps_label st i g :
  closed max_length df st ->
  group_labels st !! i = Some (Some g) ->
  group_labels (pass max_length df st) !! i = Some (Some g).
Proof.
  intros Hclosed Hl. unfold pass. cbn [group_labels].
  apply (scan_keeps_label df 0); [done| |done].
  destruct Hclosed as [Hc Hbelow Hgroups].
  assert (forall j, group_labels st !! j <> Some (Some (group_counter st)))
    as Hnone by (intros j H%Hbelow; lia).
  split; cbn [used_fragments group_labels group_counter group total_length clusters].
  - by destruct Hc.
  - intros j g' H%Hbelow. lia.
  - done.
  - by rewrite member_rows_nil.
  - unfold members_length. by rewrite member_rows_nil.
  - simpl. lia.
  - simpl. lia.
  - intros j r _ H. by apply Hnone in H.
  - intros j j' ri rj _ _ _ H. by apply Hnone in H.
Qed.

Lemma passes_closed k st :
  closed max_length df st -> closed max_length df (passes k st).
Proof.
  intros H. induction k as [|k IH]; [done|]. simpl. by apply pass_closed.
Qed.

Lemma passes_keep_label k st i g :
  closed max_length df st ->
  group_labels st !! i = Some (Some g) ->
  group_labels (passes k st) !! i = Some (Some g).
Proof.
  intros Hc Hl. induction k as [|k IH]; [done|]. simpl.
  apply pass_keeps_label; [by apply passes_closed|done].
Qed.

(** What the loop returns, from any closed state it is entered in. *)
Lemma packing_loop_spec fuel st iter trace :
  closed max_length df st ->
  0 <= iter <= Z.of_nat n * 3 ->
  Z.of_nat n * 3 + 1 - iter <= Z.of_nat fuel ->
  exists p,
    packing_loop fuel max_length df progress st iter trace = Ret p
    /\ closed max_length df (final p)
    /\ iter <= iter_counter p <= Z.of_nat n * 3 + 1
    /\ (iter_counter p <= Z.of_nat n * 3 ->
        (n <= size (used_fragments (final p)))%nat)
    /\ final p = passes (Z.to_nat (iter_counter p - iter)) st
    /\ (forall k, (k < Z.to_nat (iter_counter p - iter))%nat ->
          (size (used_fragments (passes k st)) < n)%nat)
    /\ exists vs,
         packing_trace p = trace ++ vs
         /\ StronglySorted Qle vs
         /\ within (packing_percent (size (used_fragments st)) n) 95 vs.
Proof.
  revert st iter trace; induction fuel as [|fuel IH];
    intros st iter trace Hclosed Hiter Hfuel; cbn [packing_loop];
    destruct (Nat.ltb_spec (size (used_fragments st)) n) as [Hlt|Hge];
    try lia.
  2: eexists; split; [done|]; cbn [final iter_counter packing_trace];
       rewrite Z.sub_diag; split_and!; try done; try lia;
       exists []; rewrite app_nil_r; split_and!; [done|constructor|constructor].
  set (st' := pass max_length df st).
  assert (closed max_length df st') as Hclosed' by by apply pass_closed.
  assert (size (used_fragments st) <= size (used_fragments st'))%nat as Hmono
    by apply subseteq_size, pass_used_mono.
  pose proof (closed_used_le st' Hclosed') as Hle.
  pose proof (packing_percent_mono _ _ n Hmono) as Hpm.
  pose proof (packing_percent_range _ n Hle) as Hpr.
  destruct (Z.ltb_spec (Z.of_nat n * 3) (iter + 1)) as [Hbreak|Hgo].
  - eexists; split; [done|]. cbn [final iter_counter packing_trace].
    replace (Z.to_nat (iter + 1 - iter)) with 1%nat by lia.
    split_and!; try done; try lia.
    + intros k Hk. by replace k with 0%nat by lia.
    + eexists; split_and!; [done|apply sorted_emit|].
      apply within_emit. split; [done|]. apply Hpr.
  - destruct (IH st' (iter + 1)
                (trace ++ emit progress
                   (packing_percent (size (used_fragments st')) n))
                Hclosed' ltac:(lia) ltac:(lia))
      as (p & -> & Hcp & Hic & Hall & Hfin & Hrun & vs & Htr & Hs & Hw).
    exists p. split; [done|].
    assert (Z.to_nat (iter_counter p - iter)
            = S (Z.to_nat (iter_counter p - (iter + 1)))) as -> by lia.
    split_and!; try done; try lia.
    + by rewrite Nat.iter_succ_r.
    + intros [|k] Hk; [done|]. rewrite Nat.iter_succ_r. apply Hrun. lia.
    + exists (emit progress (packing_percent (size (used_fragments st')) n) ++ vs).
      split; [by rewrite Htr, <- app_assoc|].
      apply (sorted_app _ (packing_percent (size (used_fragments st')) n));
        [done|apply Hpr|apply sorted_emit| |done|done].
      apply within_emit. split; [done|]. apply Qle_refl.
Qed.

Lemma pack_spec :
  exists p,
    pack max_length df progress = Ret p
    /\ closed max_length df (final p)
    /\ 0 <= iter_counter p <= Z.of_nat n * 3 + 1
    /\ (iter_counter p <= Z.of_nat n * 3 ->
        (n <= size (used_fragments (final p)))%nat)
    /\ final p = passes (Z.to_nat (iter_counter p)) (packer_init n)
    /\ (forall k, (k < Z.to_nat (iter_counter p))%nat ->
          (size (used_fragments (passes k (packer_init n))) < n)%nat)
    /\ StronglySorted Qle (packing_trace p)
    /\ within 90 95 (packing_trace p).
Proof.
  destruct (packing_loop_spec (3 * n + 1) (packer_init n) 0 []
              (init_closed max_length df) ltac:(lia) ltac:(lia))
    as (p & Hp & Hcp & Hic & Hall & Hfin & Hrun & vs & Htr & Hs & Hw).
  exists p. rewrite Z.sub_0_r in *. simpl in Htr. rewrite Htr.
  split_and!; try done; try lia.
  eapply within_weaken; [| |exact Hw].
  - apply packing_percent_range. cbn [packer_init used_fragments].
    rewrite size_empty. lia.
  - apply Qle_refl.
Qed.

End packing_loop_facts.

(** *** What the packer guarantees *)

Lemma elem_of_members g labels idx :
  idx ∈ members g labels <-> labels !! idx = Some (Some g).
Proof.
  unfold members, enumerate. rewrite list_elem_of_fmap. split.
  - intros ([i l] & -> & [Hl Hin]%list_elem_of_filter).
    apply elem_of_lookup_imap in Hin as (i' & l' & [= <- <-] & Hi).
    apply has_label_true in Hl. simpl in *. by subst.
  - intros Hl. exists (idx, Some g). split; [done|].
    apply list_elem_of_filter. split; [by apply has_label_true|].
    apply elem_of_lookup_imap. eauto.
Qed.







(** C5, as stated: on two rows that hold the same sequence the loop makes
    seven passes, one more than three times the number of rows. *)
Lemma pack_exceeds_three_passes_per_row :
  iter_counter <$> pack MAX_LENGTH twin_rows false = Ret 7
  /\ ~ (7 <= 3 * Z.of_nat (List.length twin_rows)).
Proof. split; [vm_compute; reflexivity|simpl; lia]. Qed.

(** C5, amended: [group_fragments] terminates.  It repeats passes over the
    full fragment order while unused fragments remain and makes at most
    3 x (total fragment count) + 1 passes: it stops as soon as the number
    of passes made exceeds 3 x (total fragment count), and the fragments
    still unused are then left without a group. *)
Theorem pack_terminates (max_length : Z) (df : list Tagged.t) (progress : bool) :
  exists p,
    pack max_length df progress = Ret p
    /\ 0 <= iter_counter p <= 3 * Z.of_nat (List.length df) + 1
    /\ final p = Nat.iter (Z.to_nat (iter_counter p)) (pass max_length df)
                          (packer_init (List.length df))
    /\ (forall k, (k < Z.to_nat (iter_counter p))%nat ->
          (size (used_fragments
                   (Nat.iter k (pass max_length df)
                             (packer_init (List.length df))))
           < List.length df)%nat)
    /\ ((List.length df <= size (used_fragments (final p)))%nat
        \/ iter_counter p = 3 * Z.of_nat (List.length df) + 1)
    /\ (forall idx r,
          df !! idx = Some r ->
          Tagged.Sequence r ∉ used_fragments (final p) ->
          group_labels (final p) !! idx = Some None).
Proof.
  destruct (pack_spec max_length df progress)
    as (p & Hp & Hcp & Hic & Hall & Hfin & Hrun & _).
  exists p. split_and!; try done; try lia.
  intros idx r Hr Hfree. eapply free_slot; eauto. by destruct Hcp.
Qed.

(** C2: when the loop of [group_fragments] ends without hitting its
    safety bound, every row has exactly one group: every sequence is
    marked used, the row carries a label, it is a member of the group of
    that label and of no other, and the label is the only one it ever
    received in the course of the passes. *)
Theorem every_row_in_exactly_one_group
    (max_length : Z) (df : list Tagged.t) (progress : bool) (p : packing) :
  pack max_length df progress = Ret p ->
  iter_counter p <= 3 * Z.of_nat (List.length df) ->
  size (used_fragments (final p)) = List.length df
  /\ forall idx r,
       df !! idx = Some r ->
       Tagged.Sequence r ∈ used_fragments (final p)
       /\ exists g,
            group_labels (final p) !! idx = Some (Some g)
            /\ (forall g', idx ∈ members g' (group_labels (final p)) <-> g' = g)
            /\ (forall k g',
                  (k <= Z.to_nat (iter_counter p))%nat ->
                  group_labels (Nat.iter k (pass max_length df)
                                  (packer_init (List.length df))) !! idx
                    = Some (Some g') ->
                  g' = g).
Proof.
  intros Hpack Hbound.
  destruct (pack_spec max_length df progress)
    as (p' & Hp & Hcp & Hic & Hall & Hfin & Hrun & _).
  rewrite Hpack in Hp. injection Hp as <-.
  specialize (Hall ltac:(lia)).
  pose proof (closed_used_le max_length df _ Hcp) as Hle.
  destruct Hcp as [Hc Hbelow Hgroups].
  destruct Hc as [Hlen Hused Hsize].
  assert (labelled (group_labels (final p)) = List.length (group_labels (final p)))
    as Hfull by lia.
  split; [lia|]. intros idx r Hr.
  destruct (labelled_full _ idx Hfull) as [g Hg].
  { rewrite Hlen. by eapply lookup_lt_Some. }
  split; [by eapply Hused|]. exists g. split_and!; [done| |].
  - intros g'. rewrite elem_of_members, Hg. split; [by intros [= ->]|by intros ->].
  - intros k g' Hk Hk'.
    assert (Z.to_nat (iter_counter p) = (Z.to_nat (iter_counter p) - k) + k)%nat
      as Hsplit by lia.
    rewrite Hsplit, Nat.iter_add in Hfin.
    eapply (passes_keep_label max_length df) in Hk';
      [|apply passes_closed, init_closed].
    rewrite <- Hfin, Hg in Hk'. by injection Hk' as ->.
Qed.

Lemma every_row_in_exactly_one_group_witness :
  match pack MAX_LENGTH three_rows false with
  | Ret p => size (used_fragments (final p)) = 3%nat
  | _ => False
  end.
Proof.
  destruct (pack MAX_LENGTH three_rows false) as [p| |] eqn:Hp;
    [|by vm_compute in Hp..].
  apply (every_row_in_exactly_one_group MAX_LENGTH three_rows false p Hp).
  vm_compute in Hp. injection Hp as <-. vm_compute. discriminate.
Defined.



(** ** The aggressive merger *)

Section aggressive.

Implicit Types (df : list Packed.t) (gids : list Z) (g new : Z) (i j : nat).



Lemma set_Group_same (r : Packed.t) : Packed.set_Group r (Packed.Group r) = r.
Proof. by destruct r. Qed.

Lemma aggressive_loop_relabel i new gids df :
  aggressive_loop i new gids df =
  map (fun r => Packed.set_Group r (relabel i new gids (Packed.Group r))) df.
Proof.
  revert i new df; induction gids as [|gid rest IH]; intros i new df;
    cbn [aggressive_loop relabel].
  - induction df as [|r df IHdf]; [done|]. simpl.
    by rewrite set_Group_same, <- IHdf.
  - destruct (i mod 3 =? 0)%nat; [apply IH|].
    rewrite IH, map_map. apply map_ext. intros r.
    by destruct (Packed.Group r =? gid).
Qed.




Lemma elem_of_group_keys (groups : list Z) g :
  g ∈ group_keys groups <-> g ∈ groups.
Proof.
  unfold group_keys. by rewrite merge_sort_Permutation, elem_of_remove_dups.
Qed.



End aggressive.






Example aggressive_grouping_example :
  map Packed.Group (apply_aggressive_grouping six_groups) = [0; 0; 2; 2; 7; 7; 0].
Proof. reflexivity. Qed.

(** ** The distance engine *)

Section distance.

Context (E : externals) (fragments : list string) (progress : bool).

Abbreviation n := (List.length fragments).

(** The values emitted while the rows of the matrix are filled in grow
    with the row index. *)
Lemma distance_rows_trace (step : Z) (rows : list string) (k : nat)
    (trace : list Q) (matrix : list (list Z)) :
  (k + List.length rows <= n)%nat ->
  StronglySorted Qle trace ->
  within 2 (distance_percent k n) trace ->
  let out := foldl (distance_row E fragments progress step) (trace, matrix)
                   (imap (fun i x => ((k + i)%nat, x)) rows) in
  StronglySorted Qle out.1 /\ within 2 82 out.1.
Proof.
  revert k trace matrix; induction rows as [|f2 rows IH];
    intros k trace matrix Hk Hs Hw; cbn [imap foldl List.length] in *.
  - split; [done|]. eapply within_weaken; [| |exact Hw].
    + apply Qle_refl.
    + apply distance_percent_range. lia.
  - rewrite (imap_ext _ (fun i x => ((S k + i)%nat, x)))
      by (intros; simpl; f_equal; lia).
    rewrite Nat.add_0_r. cbn [distance_row].
    pose proof (distance_percent_mono k (S k) n ltac:(lia)) as Hm.
    pose proof (distance_percent_range k n ltac:(lia)) as Hr.
    destruct ((Z.of_nat k mod step =? 0) && progress).
    + destruct (sorted_app 2 (distance_percent k n) (distance_percent (S k) n)
                  trace [distance_percent k n]) as [Hs' Hw'];
        [apply Hr|done|done|done|repeat constructor| |].
      { constructor; [|constructor]. split; [apply Qle_refl|done]. }
      apply IH; [lia|done|done].
    + apply IH; [lia|done|].
      eapply within_weaken; [| |exact Hw]; [apply Qle_refl|done].
Qed.

(** The callback only sees values between 2 and 90, in increasing
    order. *)
Lemma distance_trace_sorted :
  StronglySorted Qle (compute_distance_matrix E fragments progress).1
  /\ within 2 90 (compute_distance_matrix E fragments progress).1.
Proof.
  unfold compute_distance_matrix, enumerate.
  pose proof (distance_rows_trace
                (Z.max 1 (Z.of_nat n / 100)) fragments 0 [] []
                ltac:(simpl; lia) ltac:(constructor) ltac:(constructor))
    as [Hs Hw].
  cbn [Nat.add] in *.
  destruct (foldl _ _ _) as [trace matrix]. cbn [fst] in *.
  apply (sorted_app 2 82 90); [done|done|done|done|apply sorted_emit|].
  apply within_emit. split; [done|apply Qle_refl].
Qed.

End distance.

(** Number of multiples of [q] below [k]. *)
Lemma multiples_below_succ (q k : Z) :
  1 <= q -> 0 <= k ->
  (k + 1 + q - 1) / q = (k + q - 1) / q + (if k mod q =? 0 then 1 else 0).
Proof.
  intros Hq Hk.
  pose proof (Z.div_mod k q ltac:(lia)) as Hdm.
  pose proof (Z.mod_pos_bound k q ltac:(lia)) as Hb.
  replace (k + 1 + q - 1) with (k mod q + (k / q + 1) * q) by lia.
  rewrite Z.div_add by lia. rewrite (Z.div_small (k mod q)) by lia.
  destruct (Z.eqb_spec (k mod q) 0) as [Hz|Hnz].
  - replace (k + q - 1) with (q - 1 + (k / q) * q) by lia.
    rewrite Z.div_add by lia. rewrite (Z.div_small (q - 1)) by lia. lia.
  - replace (k + q - 1) with (k mod q - 1 + (k / q + 1) * q) by lia.
    rewrite Z.div_add by lia. rewrite (Z.div_small (k mod q - 1)) by lia. lia.
Qed.

Section distance_calls.

Context (E : externals) (fragments : list string).

(** The loop invokes the callback once per multiple of [step] among the
    row indices. *)
Lemma distance_rows_calls (step : Z) (rows : list string) (k : nat)
    (trace : list Q) (matrix : list (list Z)) :
  1 <= step ->
  let out := foldl (distance_row E fragments true step) (trace, matrix)
                   (imap (fun i x => ((k + i)%nat, x)) rows) in
  Z.of_nat (List.length out.1) =
  Z.of_nat (List.length trace)
  + (Z.of_nat (k + List.length rows) + step - 1) / step
  - (Z.of_nat k + step - 1) / step.
Proof.
  intros Hstep. revert k trace matrix; induction rows as [|f2 rows IH];
    intros k trace matrix; cbn [imap foldl List.length].
  - rewrite Nat.add_0_r. cbn [fst]. lia.
  - rewrite (imap_ext _ (fun i x => ((S k + i)%nat, x)))
      by (intros; simpl; f_equal; lia).
    rewrite Nat.add_0_r. cbn [distance_row]. rewrite andb_true_r.
    pose proof (multiples_below_succ step (Z.of_nat k) Hstep ltac:(lia)) as Hsucc.
    replace (Z.of_nat (k + S (List.length rows)))
      with (Z.of_nat (S k + List.length rows)) by lia.
    replace (Z.of_nat k + 1 + step - 1) with (Z.of_nat (S k) + step - 1)
      in Hsucc by lia.
    destruct (Z.of_nat k mod step =? 0); rewrite IH.
    + rewrite List.length_app. simpl. lia.
    + lia.
Qed.

(** Whatever the number of fragments, the callback is invoked at most
    200 times. *)
Lemma distance_calls_bound :
  (List.length (compute_distance_matrix E fragments true).1 <= 200)%nat.
Proof.
  unfold compute_distance_matrix, enumerate.
  set (n := Z.of_nat (List.length fragments)).
  set (step := Z.max 1 (n / 100)).
  assert (1 <= step) as Hstep by lia.
  pose proof (distance_rows_calls step fragments 0 [] [] Hstep) as Hcalls.
  cbn [Nat.add List.length] in Hcalls. fold n in Hcalls.
  destruct (foldl _ _ _) as [trace matrix]. cbn [fst emit] in *.
  rewrite List.length_app. simpl.
  replace (Z.of_nat 0 + step - 1) with (step - 1) in Hcalls by lia.
  rewrite (Z.div_small (step - 1)) in Hcalls by lia.
  assert ((n + step - 1) / step < 200); [|lia].
  apply Z.div_lt_upper_bound; [lia|].
  pose proof (Z.div_mod n 100 ltac:(lia)).
  pose proof (Z.mod_pos_bound n 100 ltac:(lia)).
  assert (0 <= n / 100) by (apply Z.div_pos; lia).
  lia.
Qed.

End distance_calls.

(** C9, on 199 fragments: [step] is [max(1, 199 // 100) = 1], so the
    callback is invoked in each of the 199 iterations and once more at the
    end, 200 times in all, where the docstring of the function promises at
    most 100 updates; 101 fragments already make 102 invocations.  No
    input makes more than 200, and every value passed lies between 2 and
    90. *)
Theorem distance_progress_invocations (E : externals) :
  List.length (compute_distance_matrix E (replicate 199 "A"%string) true).1
  = 200%nat
  /\ List.length (compute_distance_matrix E (replicate 101 "A"%string) true).1
     = 102%nat
  /\ (forall fragments : list string,
        (List.length (compute_distance_matrix E fragments true).1 <= 200)%nat
        /\ within 2 90 (compute_distance_matrix E fragments true).1).
Proof.
  split_and!; [vm_compute; reflexivity..|].
  intros fragments. split; [apply distance_calls_bound|].
  apply distance_trace_sorted.
Qed.

(** ** The pipeline *)

Section pipeline_facts.

Context (E : externals).

Lemma rewrite_row_returns draw row :
  exists new_seq,
    rewrite_row draw row =
      Ret {| Grouped.Group := Grouped.Group row;
             Grouped.Sequence := new_seq;
             Grouped.Name := Grouped.Name row;
             Grouped.Length := PyStr.len new_seq |}.
Proof.
  unfold rewrite_row. rewrite cut_site_chain_replace_second.
  cbn [mbind res_bind]. eauto.
Qed.

(** The rewriter returns a table, row for row, with the group ids and
    the names it was given. *)
Lemma rewrite_rows_returns idx rows :
  exists out,
    rewrite_rows E idx rows = Ret out
    /\ map Grouped.Group out = map Grouped.Group rows
    /\ map Grouped.Name out = map Grouped.Name rows.
Proof.
  revert idx; induction rows as [|row rows IH]; intros idx; cbn [rewrite_rows].
  - by exists [].
  - destruct (rewrite_row_returns (rand_index E idx) row) as [new_seq ->].
    destruct (IH (S idx)) as (out & -> & Hg & Hn).
    cbn [mbind res_bind]. eexists. split; [done|].
    cbn [map Grouped.Group Grouped.Name]. by rewrite Hg, Hn.
Qed.

Lemma group_fragments_returns max_length df progress :
  exists p,
    pack max_length df progress = Ret p
    /\ group_fragments E max_length df progress =
         Ret (packing_trace p,
              with_Group df (astype_int E (group_labels (final p))))
    /\ StronglySorted Qle (packing_trace p)
    /\ within 90 95 (packing_trace p).
Proof.
  destruct (pack_spec max_length df progress)
    as (p & Hp & _ & _ & _ & _ & _ & Hs & Hw).
  exists p. unfold group_fragments. rewrite Hp. by cbn [mbind res_bind].
Qed.

(** Up to the rewriter the values emitted are sorted and stay between
    0 and 95. *)
Lemma assemble_returns aggressive progress table :
  exists trace grouped,
    assemble E aggressive progress table = Ret (trace, grouped)
    /\ StronglySorted Qle trace /\ within 0 95 trace.
Proof.
  unfold assemble.
  pose proof (distance_trace_sorted E
                (map Frag.Sequence (packable (map upper_row table))) progress)
    as [Hsd Hwd].
  destruct (compute_distance_matrix E _ progress) as [t_dist sim].
  cbn [fst] in *.
  match goal with
  | |- context [group_fragments E ?m ?d progress] =>
      destruct (group_fragments_returns m d progress)
        as (p & _ & -> & Hsp & Hwp)
  end.
  cbn [mbind res_bind]. do 2 eexists. split; [done|].
  assert (StronglySorted Qle (emit progress 90 ++ packing_trace p)
          /\ within 90 95 (emit progress 90 ++ packing_trace p)) as [Hs1 Hw1].
  { apply (sorted_app 90 90 95); try done.
    - apply sorted_emit.
    - apply within_emit. split; apply Qle_refl. }
  assert (StronglySorted Qle (t_dist ++ emit progress 90 ++ packing_trace p)
          /\ within 2 95 (t_dist ++ emit progress 90 ++ packing_trace p))
    as [Hs2 Hw2] by (apply (sorted_app 2 90 95); done).
  assert (StronglySorted Qle (emit progress 0 ++ emit progress 2)
          /\ within 0 2 (emit progress 0 ++ emit progress 2)) as [Hs0 Hw0].
  { apply (sorted_app 0 2 2); try done.
    - apply sorted_emit.
    - apply within_emit. split; [apply Qle_refl|done].
    - apply sorted_emit.
    - apply within_emit. split; apply Qle_refl. }
  rewrite <- app_assoc.
  replace ((emit progress 0 ++ emit progress 2) ++
           t_dist ++ emit progress 90 ++ packing_trace p)
    with (emit progress 0 ++ emit progress 2 ++
          t_dist ++ emit progress 90 ++ packing_trace p)
    by by rewrite <- app_assoc.
  rewrite (app_assoc (emit progress 0)).
  apply (sorted_app 0 2 95); done.
Qed.

(** [pipeline] returns, and what the callback received is what
    [assemble] emitted followed by 98 and 100. *)
Lemma pipeline_returns aggressive progress table :
  exists trace out,
    pipeline E aggressive progress table =
      Ret (trace ++ emit progress 98 ++ emit progress 100, out)
    /\ StronglySorted Qle trace /\ within 0 95 trace.
Proof.
  destruct (assemble_returns aggressive progress table)
    as (trace & grouped & Ha & Hs & Hw).
  unfold pipeline. rewrite Ha. cbn [mbind res_bind].
  unfold replace_cut_sites_and_pad.
  destruct (rewrite_rows_returns 0 grouped) as (out & -> & _).
  cbn [mbind res_bind]. by exists trace, out.
Qed.

End pipeline_facts.

(** C10: in a run of [pipeline] that completes, the values handed to the
    progress callback never decrease, lie between 0 and 100, and the last
    one is 100. *)
Theorem progress_nondecreasing_to_100
    (E : externals) (aggressive : bool) (table : list Frag.t)
    (trace : list Q) (out : list Grouped.t) :
  pipeline E aggressive true table = Ret (trace, out) ->
  StronglySorted Qle trace /\ within 0 100 trace /\ last trace = Some 100%Q.
Proof.
  intros Hrun.
  destruct (pipeline_returns E aggressive true table) as (t & o & Hp & Hs & Hw).
  rewrite Hrun in Hp. injection Hp as -> ->.
  destruct (sorted_app 0 95 100 t (emit true 98 ++ emit true 100)) as [Hs' Hw'];
    try done.
  - repeat constructor. done.
  - repeat constructor; done.
  - split_and!; [done..|]. cbn [emit app].
    replace (t ++ [98%Q; 100%Q]) with ((t ++ [98%Q]) ++ [100%Q])
      by by rewrite <- app_assoc.
    apply last_snoc.
Qed.





Lemma progress_nondecreasing_to_100_witness :
  match pipeline E0 true true small_table with
  | Ret (trace, _) => last trace = Some 100%Q
  | _ => False
  end.
Proof.
  destruct (pipeline E0 true true small_table) as [[trace out]| |] eqn:Hrun;
    [|by vm_compute in Hrun..].
  apply (progress_nondecreasing_to_100 E0 true small_table trace out Hrun).
Defined.

(** *** Adding the long fragments back *)

Lemma add_back_rows max_group df_large grouped :
  add_back max_group df_large grouped =
  grouped ++
  imap (fun i row =>
          {| Grouped.Group := max_group + 1 + Z.of_nat i;
             Grouped.Sequence := Frag.Sequence row;
             Grouped.Name := [Frag.Name row];
             Grouped.Length := PyStr.len (Frag.Sequence row) |}) df_large.
Proof.
  revert max_group grouped; induction df_large as [|row rest IH];
    intros max_group grouped; cbn [add_back imap].
  - by rewrite app_nil_r.
  - rewrite IH, <- app_assoc. cbn [app]. f_equal. f_equal.
    + f_equal. lia.
    + apply imap_ext. intros i r _. simpl. f_equal. lia.
Qed.



(** The rows that are both long and packable are those of 400 to 498
    letters. *)
Lemma long_and_packable df r :
  r ∈ large df /\ r ∈ packable df <->
  r ∈ df /\ 400 <= PyStr.len (Frag.Sequence r) < 499.
Proof.
  unfold large, packable, MAX_LENGTH. rewrite !list_elem_of_filter. intuition lia.
Qed.





(** C1, on a table with one fragment of 450 letters: the fragment is in
    the "long" subset and in the "packable" subset, it is packed into
    group 0 and added back as group 1, and the table written holds it
    twice. *)
Theorem fragment_packed_and_added_back (E : externals) (aggressive : bool) :
  large (map upper_row overlap_table) = map upper_row overlap_table
  /\ packable (map upper_row overlap_table) = map upper_row overlap_table
  /\ snd <$> pipeline E aggressive false overlap_table
     = Ret [overlap_row 0; overlap_row 1].
Proof.
  split_and!; [by vm_compute..|].
  destruct aggressive; vm_compute; reflexivity.
Qed.

(** * Further properties of the code *)

(** ** [nth_repl] for every count *)

Lemma drop_drop (a b : nat) (s : string) :
  PyStr.drop a (PyStr.drop b s) = PyStr.drop (b + a) s.
Proof.
  revert s; induction b as [|b IH]; intros s; [done|].
  destruct s as [|c s]; simpl; [by destruct a|apply IH].
Qed.

Lemma prefix_split (sub s : string) :
  String.prefix sub s = true -> s = sub +:+ PyStr.drop (String.length sub) s.
Proof.
  revert s; induction sub as [|a sub IH]; intros [|c s]; simpl; try done.
  destruct (ascii_dec a c) as [->|]; [|done].
  intros H. rewrite app_cons. f_equal. by apply IH.
Qed.

(** A position listed by [positions] is one at which [sub] starts. *)
Lemma positions_sound (sub s : string) (pos p : nat) :
  p ∈ PyStr.positions sub s pos ->
  (pos <= p)%nat /\ String.prefix sub (PyStr.drop (p - pos) s) = true.
Proof.
  revert pos; induction s as [|c s IH]; intros pos; cbn [PyStr.positions].
  - destruct (String.prefix sub EmptyString) eqn:Hp; cbn [app].
    + intros ->%list_elem_of_singleton. by rewrite Nat.sub_diag.
    + intros H. by inversion H.
  - intros [Hin|Hin]%elem_of_app.
    + destruct (String.prefix sub (String c s)) eqn:Hp; [|by inversion Hin].
      apply list_elem_of_singleton in Hin as ->. by rewrite Nat.sub_diag.
    + apply IH in Hin as [Hle Hp]. split; [lia|].
      by replace (p - pos)%nat with (S (p - S pos)) by lia.
Qed.

Lemma position_splits (old s : string) (p : nat) :
  p ∈ PyStr.positions old s 0 ->
  s = PyStr.take p s +:+ old +:+ PyStr.drop (p + String.length old) s.
Proof.
  intros [_ Hp]%positions_sound. rewrite Nat.sub_0_r in Hp.
  apply prefix_split in Hp. rewrite drop_drop in Hp.
  rewrite <- Hp. symmetry. apply take_drop.
Qed.

(** The search loop walks down the list of positions: entered at a
    position with [i] below [n], it stops at the position [n - i] places
    further, or runs off the end of the list. *)
Lemma nth_repl_loop_positions (s old : string) (n : Z) (rest : list nat) :
  old <> EmptyString ->
  forall (p : nat) (i : Z) (fuel : nat),
    (p + String.length old <= String.length s)%nat ->
    rest = PyStr.positions old (PyStr.drop (p + 1) s) (p + 1) ->
    i <= n ->
    (String.length s < p + fuel)%nat ->
    nth_repl_loop fuel s old n (Z.of_nat p) i =
    Ret (match (p :: rest) !! Z.to_nat (n - i) with
         | Some q => (Z.of_nat q, n)
         | None => (-1, i + Z.of_nat (List.length (p :: rest)))
         end).
Proof.
  intros Hne.
  assert (1 <= String.length old)%nat as Hold
    by (destruct old; simpl; [done|lia]).
  induction rest as [|q rest IH]; intros p i fuel Hp Hrest Hi Hfuel.
  all: destruct (Z.eq_dec i n) as [->|Hin];
    [rewrite nth_repl_loop_stop by (by right);
     by rewrite Z.sub_diag|].
  all: destruct fuel as [|fuel]; [lia|].
  all: rewrite nth_repl_loop_step by lia.
  all: replace (Z.of_nat p + 1) with (Z.of_nat (p + 1)) by lia.
  all: rewrite find_in_range by lia.
  all: rewrite find_at_positions, <- Hrest; cbn [head].
  all: replace (Z.to_nat (n - i)) with (S (Z.to_nat (n - (i + 1)))) by lia.
  - rewrite nth_repl_loop_stop by (by left). reflexivity.
  - assert (p + 1 <= q /\ q + String.length old <= String.length s)%nat as [Hq1 Hq2].
    { pose proof (find_at_positions old (PyStr.drop (p + 1) s) (p + 1)) as Hf.
      rewrite <- Hrest in Hf. apply find_at_bounds in Hf.
      rewrite length_drop in Hf. lia. }
    symmetry in Hrest. apply positions_tail in Hrest; [|done].
    rewrite drop_drop in Hrest.
    replace (p + 1 + (q - (p + 1) + 1))%nat with (q + 1)%nat in Hrest by lia.
    rewrite (IH q (i + 1) fuel) by (done || lia).
    change ((p :: q :: rest) !! S (Z.to_nat (n - (i + 1))))
      with ((q :: rest) !! Z.to_nat (n - (i + 1))).
    destruct ((q :: rest) !! Z.to_nat (n - (i + 1))); [done|].
    cbn [List.length]. do 2 f_equal. lia.
Qed.

(** The whole of [nth_repl] for a count [n >= 1], in terms of the list of
    positions and of [s.count(old)]. *)
Lemma nth_repl_positions (s old new : string) (n : nat) :
  old <> EmptyString -> (1 <= n)%nat ->
  nth_repl s old new (Z.of_nat n) =
  Ret (match PyStr.positions old s 0 !! (n - 1)%nat with
       | Some p =>
           if (n <=? PyStr.count s old)%nat
           then PyStr.take p s +:+ new +:+ PyStr.drop (p + String.length old) s
           else s
       | None => s
       end).
Proof.
  intros Hne Hn. unfold nth_repl.
  assert (1 <= String.length old)%nat as Hold
    by (destruct old; simpl; [done|lia]).
  change 0 with (Z.of_nat 0). rewrite find_in_range by lia.
  cbn [PyStr.drop]. rewrite find_at_positions.
  pose proof (length_split_go_count old 0 s) as Hcount.
  rewrite <- (count_nonempty s old Hne) in Hcount.
  pose proof (count_le_occurrences s old Hne) as Hle.
  rewrite <- (length_positions old s 0) in Hle.
  destruct (PyStr.positions old s 0) as [|p1 rest] eqn:Hpos; cbn [head].
  { rewrite nth_repl_loop_stop by (by left). cbn [mbind res_bind].
    change (if -1 =? -1 then Z.of_nat 0 else 1) with 0.
    by destruct (Z.eqb_spec 0 (Z.of_nat n)); [lia|]. }
  assert (p1 + String.length old <= String.length s)%nat as Hp1.
  { pose proof (find_at_positions old s 0) as Hf. rewrite Hpos in Hf.
    apply find_at_bounds in Hf. lia. }
  destruct (Z.eqb_spec (Z.of_nat p1) (-1)); [lia|].
  apply positions_tail in Hpos as Hrest; [|done].
  rewrite Nat.sub_0_r in Hrest.
  rewrite (nth_repl_loop_positions s old (Z.of_nat n) rest Hne p1 1)
    by (done || lia).
  replace (Z.to_nat (Z.of_nat n - 1)) with (n - 1)%nat by lia.
  destruct ((p1 :: rest) !! (n - 1)%nat) as [q|] eqn:Hq; cbn [mbind res_bind].
  - rewrite Z.eqb_refl. rewrite split_nonempty by done. cbn [mbind res_bind].
    rewrite Hcount.
    assert (q + String.length old <= String.length s)%nat as Hq2.
    { apply list_elem_of_lookup_2 in Hq. rewrite <- Hpos in Hq.
      apply positions_sound in Hq as [_ Hq]. rewrite Nat.sub_0_r in Hq.
      apply prefix_length in Hq. rewrite length_drop in Hq.
      destruct (decide (q <= String.length s)%nat); [lia|].
      assert (1 <= 0)%nat; [|lia]. etrans; [exact Hold|]. etrans; [exact Hq|]. lia. }
    destruct (Z.leb_spec (Z.of_nat n) (Z.of_nat (S (PyStr.count s old)) - 1)),
             (Nat.leb_spec n (PyStr.count s old)); try lia; [|done].
    unfold PyStr.slice_to, PyStr.slice_from.
    rewrite !clip_in_range by (unfold PyStr.len; lia).
    rewrite Nat2Z.id. unfold PyStr.len.
    by replace (Z.to_nat (Z.of_nat q + Z.of_nat (String.length old)))
      with (q + String.length old)%nat by lia.
  - apply lookup_ge_None_1 in Hq.
    destruct (Z.eqb_spec (1 + Z.of_nat (List.length (p1 :: rest))) (Z.of_nat n));
      [|done].
    rewrite split_nonempty by done. cbn [mbind res_bind]. rewrite Hcount.
    destruct (Z.leb_spec (1 + Z.of_nat (List.length (p1 :: rest)))
                (Z.of_nat (S (PyStr.count s old)) - 1)); [lia|done].
Qed.

(** X1: for a non-empty needle that [s.count] finds at least [n] times
    ([n >= 1]), [nth_repl] swaps the needle for the replacement at the
    [n]-th position at which the needle starts and leaves the text before
    and behind that occurrence as it is. *)
Theorem nth_repl_replaces_nth (s old new : string) (n : nat) :
  old <> EmptyString ->
  (1 <= n <= PyStr.count s old)%nat ->
  exists p,
    PyStr.positions old s 0 !! (n - 1)%nat = Some p
    /\ s = PyStr.take p s +:+ old +:+ PyStr.drop (p + String.length old) s
    /\ nth_repl s old new (Z.of_nat n)
       = Ret (PyStr.take p s +:+ new +:+ PyStr.drop (p + String.length old) s).
Proof.
  intros Hne [Hn1 Hn2].
  pose proof (count_le_occurrences s old Hne) as Hle.
  rewrite <- (length_positions old s 0) in Hle.
  destruct (lookup_lt_is_Some_2 (PyStr.positions old s 0) (n - 1)) as [p Hp];
    [lia|].
  exists p. split_and!; [done| |].
  - apply position_splits. by eapply list_elem_of_lookup_2.
  - rewrite nth_repl_positions, Hp by done.
    by destruct (Nat.leb_spec n (PyStr.count s old)); [|lia].
Qed.

Lemma nth_repl_replaces_nth_witness :
  nth_repl "abXcdXefX" "X" "YY" 3 = Ret "abXcdXefYY"%string.
Proof.
  destruct (nth_repl_replaces_nth "abXcdXefX" "X" "YY" 3) as (p & Hp & _ & Hr).
  - discriminate.
  - vm_compute. lia.
  - vm_compute in Hp. injection Hp as <-. exact Hr.
Defined.

Lemma nth_repl_loop_counts_up fuel (s old : string) (n find i find' i' : Z) :
  nth_repl_loop fuel s old n find i = Ret (find', i') -> i <= i'.
Proof.
  revert find i; induction fuel as [|fuel IH]; intros find i; cbn [nth_repl_loop];
    destruct (negb (find =? -1) && negb (i =? n)); try done.
  - intros [= _ <-]. lia.
  - intros H%IH. lia.
  - intros [= _ <-]. lia.
Qed.

(** X2: a count [n <= 0] never selects an occurrence.  [nth_repl] then
    returns the haystack as it is, but for one case: with [n = 0] and a
    needle that does not occur, [find] is [-1] when the guard is passed,
    and the result is [s[:-1] + new + s[len(old) - 1:]]. *)
Theorem nth_repl_nonpositive (s old new : string) (n : Z) :
  n <= 0 ->
  nth_repl s old new n =
  Ret (if (n =? 0) && negb (PyStr.contains old s)
       then PyStr.slice_to s (-1) +:+ new
            +:+ PyStr.slice_from s (-1 + PyStr.len old)
       else s).
Proof.
  intros Hn. unfold nth_repl, PyStr.contains.
  destruct (nth_repl_loop_total s old n) as (find' & i' & Hloop & Hstop).
  cbv zeta in Hloop. revert Hloop.
  assert (PyStr.find s old 0 =
          match PyStr.find_at old s 0 with
          | Some p => Z.of_nat p
          | None => -1
          end) as -> by apply (find_in_range s old 0 ltac:(lia)).
  destruct (PyStr.find_at old s 0) as [p|] eqn:Hfind.
  - destruct (Z.eqb_spec (Z.of_nat p) (-1)); [lia|].
    intros Hloop. rewrite Hloop. cbn [mbind res_bind].
    apply nth_repl_loop_counts_up in Hloop.
    destruct (Z.eqb_spec i' n); [lia|]. by rewrite andb_false_r.
  - change (if -1 =? -1 then 0 else 1) with 0.
    rewrite nth_repl_loop_stop by (by left). intros [= <- <-].
    cbn [mbind res_bind negb]. rewrite andb_true_r. rewrite (Z.eqb_sym n 0).
    destruct (Z.eqb_spec 0 n) as [<-|]; [|done].
    assert (old <> EmptyString) as Hne by (intros ->; by destruct s).
    rewrite split_nonempty by done. cbn [mbind res_bind].
    rewrite length_split_go_count.
    by destruct (Z.leb_spec 0 (Z.of_nat (S (PyStr.count_go old 0 s)) - 1)); [|lia].
Qed.

Lemma nth_repl_nonpositive_witness :
  nth_repl "abc" "x" "Y" 0 = Ret "abYabc"%string
  /\ nth_repl "abc" "b" "Y" (-1) = Ret "abc"%string.
Proof.
  split.
  - rewrite (nth_repl_nonpositive "abc" "x" "Y" 0) by lia. reflexivity.
  - rewrite (nth_repl_nonpositive "abc" "b" "Y" (-1)) by lia. reflexivity.
Defined.

(** ** The rewriter, row by row *)

Lemma replace_second_few (old new s : string) :
  (PyStr.count s old < 2)%nat -> replace_second old new s = s.
Proof.
  intros H. unfold replace_second.
  destruct (PyStr.positions old s 0) as [|? [|? ?]]; try done.
  by destruct (Nat.leb_spec 2 (PyStr.count s old)); [lia|].
Qed.

(** An ordinal step changes the length by the difference between the
    lengths of the two motifs, or not at all. *)
Lemma length_replace_second (old new s : string) :
  (1 <= String.length old <= String.length new)%nat ->
  (String.length s <= String.length (replace_second old new s)
   <= String.length s + (String.length new - String.length old))%nat.
Proof.
  intros Hlen. unfold replace_second.
  destruct (PyStr.positions old s 0) as [|p1 [|p2 rest]] eqn:Hpos; try lia.
  destruct (2 <=? PyStr.count s old)%nat; [|lia].
  assert (p2 ∈ PyStr.positions old s 0) as Hin
    by (rewrite Hpos; apply list_elem_of_lookup_2 with 1%nat; done).
  apply positions_sound in Hin as [_ Hp]. rewrite Nat.sub_0_r in Hp.
  apply prefix_length in Hp. rewrite length_drop in Hp.
  rewrite !length_app, length_take, length_drop. lia.
Qed.

Lemma cut_site_chain_length_bounds (sequence : string) :
  exists new_seq,
    cut_site_chain sequence = Ret new_seq
    /\ PyStr.len sequence <= PyStr.len new_seq <= PyStr.len sequence + 8.
Proof.
  eexists. split; [apply cut_site_chain_replace_second|].
  set (s1 := replace_second BsmBI BbsI sequence).
  set (s2 := replace_second BsmBI_rev BbsI_rev s1).
  set (s3 := replace_second BsmBI BspMI s2).
  pose proof (length_replace_second BsmBI BbsI sequence ltac:(simpl; lia)).
  pose proof (length_replace_second BsmBI_rev BbsI_rev s1 ltac:(simpl; lia)).
  pose proof (length_replace_second BsmBI BspMI s2 ltac:(simpl; lia)).
  pose proof (length_replace_second BsmBI_rev BspMI_rev s3 ltac:(simpl; lia)).
  fold s1 in H. fold s2 in H0. fold s3 in H1.
  unfold PyStr.len. simpl String.length in *. lia.
Qed.

(** X3: the four substitutions always return; they never shorten a
    sequence and lengthen it by at most 8 letters. *)
Theorem cut_site_chain_never_shortens (sequence : string) :
  exists new_seq,
    cut_site_chain sequence = Ret new_seq
    /\ PyStr.len sequence <= PyStr.len new_seq <= PyStr.len sequence + 8.
Proof. apply cut_site_chain_length_bounds. Qed.

Lemma pad_appends (draw : nat -> nat) (new_seq : string) :
  exists padding,
    pad draw new_seq = new_seq +:+ padding
    /\ 300 <= PyStr.len (pad draw new_seq)
    /\ (300 <= PyStr.len new_seq -> padding = EmptyString).
Proof.
  unfold pad. destruct (Z.ltb_spec (PyStr.len new_seq) 300) as [Hlt|Hge].
  - eexists. split; [done|]. split; [|lia].
    unfold PyStr.len in *. rewrite length_app.
    pose proof (length_scrub
                  (random_choices draw NUCL
                     (Z.to_nat (MIN_LENGTH - Z.of_nat (String.length new_seq))))) as Hs.
    rewrite length_random_choices in Hs. unfold MIN_LENGTH in *. lia.
  - exists EmptyString. split_and!; [|done..].
    clear. induction new_seq as [|c s IH]; [done|]. rewrite app_cons. by f_equal.
Qed.

(** X4: [replace_cut_sites_and_pad] returns a table with the rows it was
    given, in order: group id and names are kept, the new sequence is the
    old one after the four substitutions followed by the padding, which
    is empty when the substituted sequence has 300 letters or more, the
    new sequence has at least 300 letters, and [Length] is its length. *)
Theorem rewritten_rows (E : externals) (grouped_df : list Grouped.t) :
  exists out,
    replace_cut_sites_and_pad E grouped_df = Ret out
    /\ Forall2
         (fun row row' =>
            Grouped.Group row' = Grouped.Group row
            /\ Grouped.Name row' = Grouped.Name row
            /\ Grouped.Length row' = PyStr.len (Grouped.Sequence row')
            /\ 300 <= Grouped.Length row'
            /\ exists new_seq padding,
                 cut_site_chain (Grouped.Sequence row) = Ret new_seq
                 /\ Grouped.Sequence row' = new_seq +:+ padding
                 /\ (300 <= PyStr.len new_seq -> padding = EmptyString))
         grouped_df out.
Proof.
  unfold replace_cut_sites_and_pad. generalize 0%nat.
  induction grouped_df as [|row rows IH]; intros idx; cbn [rewrite_rows].
  - exists []. split; [done|constructor].
  - unfold rewrite_row.
    destruct (cut_site_chain_length_bounds (Grouped.Sequence row))
      as (new_seq & Hchain & _).
    rewrite Hchain. cbn [mbind res_bind].
    destruct (IH (S idx)) as (out & -> & Hall). cbn [mbind res_bind].
    eexists. split; [done|]. constructor; [|done].
    cbn [Grouped.Group Grouped.Name Grouped.Length Grouped.Sequence].
    destruct (pad_appends (rand_index E idx) new_seq) as (padding & Hp & Hlen & Hempty).
    split_and!; try done. by exists new_seq, padding.
Qed.

(** X5: a table whose sequences have 300 letters or more and hold each of
    [CGTCTC] and [GAGACG] at most once (as [str.count] counts) comes back
    with the same sequences, group ids and names; only [Length] is
    computed afresh. *)
Theorem rewrite_leaves_plain_rows (E : externals) (grouped_df : list Grouped.t) :
  Forall (fun row =>
            300 <= PyStr.len (Grouped.Sequence row)
            /\ (PyStr.count (Grouped.Sequence row) BsmBI < 2)%nat
            /\ (PyStr.count (Grouped.Sequence row) BsmBI_rev < 2)%nat)
         grouped_df ->
  replace_cut_sites_and_pad E grouped_df =
  Ret (map (fun row =>
              {| Grouped.Group := Grouped.Group row;
                 Grouped.Sequence := Grouped.Sequence row;
                 Grouped.Name := Grouped.Name row;
                 Grouped.Length := PyStr.len (Grouped.Sequence row) |})
           grouped_df).
Proof.
  unfold replace_cut_sites_and_pad. intros Hplain. generalize 0%nat.
  induction Hplain as [|row rows (Hlen & H1 & H2) _ IH]; intros idx;
    cbn [rewrite_rows map]; [done|].
  unfold rewrite_row. rewrite cut_site_chain_replace_second.
  rewrite (replace_second_few BsmBI BbsI (Grouped.Sequence row)) by done.
  rewrite (replace_second_few BsmBI_rev BbsI_rev (Grouped.Sequence row)) by done.
  rewrite (replace_second_few BsmBI BspMI (Grouped.Sequence row)) by done.
  rewrite (replace_second_few BsmBI_rev BspMI_rev (Grouped.Sequence row)) by done.
  cbn [mbind res_bind]. rewrite IH. cbn [mbind res_bind].
  unfold pad. by destruct (Z.ltb_spec (PyStr.len (Grouped.Sequence row)) 300); [lia|].
Qed.

Lemma rewrite_leaves_plain_rows_witness :
  replace_cut_sites_and_pad E0 plain_table =
  Ret [ {| Grouped.Group := 0; Grouped.Sequence := PyStr.times "A" 300;
           Grouped.Name := ["F1"%string]; Grouped.Length := 300 |} ].
Proof.
  rewrite (rewrite_leaves_plain_rows E0 plain_table); [reflexivity|].
  repeat constructor; vm_compute; (discriminate || lia).
Defined.

(** ** The distance matrix *)

Lemma distance_rows_matrix (E : externals) (fragments : list string)
    (progress : bool) (step : Z) (rows : list string) (k : nat)
    (trace : list Q) (matrix : list (list Z)) :
  (foldl (distance_row E fragments progress step) (trace, matrix)
         (imap (fun i x => ((k + i)%nat, x)) rows)).2
  = matrix ++ map (fun f2 => map (fun f1 => - levenshtein E f1 f2) fragments) rows.
Proof.
  revert k trace matrix; induction rows as [|f2 rows IH]; intros k trace matrix;
    cbn [imap foldl map].
  - by rewrite app_nil_r.
  - rewrite (imap_ext _ (fun i x => ((S k + i)%nat, x)))
      by (intros; simpl; f_equal; lia).
    cbn [distance_row]. rewrite IH. by rewrite <- app_assoc.
Qed.

Lemma distance_rows_silent (E : externals) (fragments : list string)
    (step : Z) (rows : list string) (k : nat) (matrix : list (list Z)) :
  (foldl (distance_row E fragments false step) ([], matrix)
         (imap (fun i x => ((k + i)%nat, x)) rows)).1 = [].
Proof.
  revert k matrix; induction rows as [|f2 rows IH]; intros k matrix;
    cbn [imap foldl]; [done|].
  rewrite (imap_ext _ (fun i x => ((S k + i)%nat, x)))
    by (intros; simpl; f_equal; lia).
  cbn [distance_row]. rewrite andb_false_r. apply IH.
Qed.

(** X6: the matrix returned by [compute_distance_matrix] is square, entry
    [(i, j)] is minus the distance from fragment [j] to fragment [i], and
    it is the same with and without a progress callback; without one
    nothing is emitted. *)
Theorem distance_matrix_entries (E : externals) (fragments : list string)
    (progress : bool) :
  let matrix := (compute_distance_matrix E fragments progress).2 in
  List.length matrix = List.length fragments
  /\ (forall i j fi fj,
        fragments !! i = Some fi -> fragments !! j = Some fj ->
        exists row,
          matrix !! i = Some row
          /\ List.length row = List.length fragments
          /\ row !! j = Some (- levenshtein E fj fi))
  /\ matrix = (compute_distance_matrix E fragments false).2
  /\ (compute_distance_matrix E fragments false).1 = [].
Proof.
  assert (forall progress,
            (compute_distance_matrix E fragments progress).2 =
            map (fun f2 => map (fun f1 => - levenshtein E f1 f2) fragments)
                fragments) as Hmatrix.
  { intros b. unfold compute_distance_matrix, enumerate.
    pose proof (distance_rows_matrix E fragments b
                  (Z.max 1 (Z.of_nat (List.length fragments) / 100))
                  fragments 0 [] []) as H.
    cbn [Nat.add app] in H. by destruct (foldl _ _ _). }
  intros matrix. subst matrix. rewrite !Hmatrix. split_and!.
  - by rewrite length_map.
  - intros i j fi fj Hi Hj. eexists. change map with (@fmap list _).
    rewrite !list_lookup_fmap, Hi. cbn [fmap option_fmap option_map].
    split_and!; [done|by rewrite length_fmap|].
    by rewrite list_lookup_fmap, Hj.
  - done.
  - unfold compute_distance_matrix, enumerate.
    pose proof (distance_rows_silent E fragments
                  (Z.max 1 (Z.of_nat (List.length fragments) / 100))
                  fragments 0 []) as H.
    cbn [Nat.add] in H. destruct (foldl _ _ _) as [trace m].
    cbn [fst emit] in *. by rewrite H.
Qed.

(** ** More on the group packer *)

Section packer_labels.

Context (max_length : Z) (df : list Tagged.t).

Implicit Types (st : packer) (idx : nat).

Lemma tidy_mark st st' idx row :
  tidy df st -> df !! idx = Some row ->
  Tagged.Sequence row ∉ used_fragments st ->
  used_fragments st' = used_fragments st ∪ {[Tagged.Sequence row]} ->
  group_labels st' = <[idx := Some (group_counter st)]> (group_labels st) ->
  group_counter st <= group_counter st' ->
  tidy df st'.
Proof.
  intros [Hc Honce Hcnt Hlab] Hrow Hfree Hu Hl Hcnt'. split.
  - by eapply consistent_mark.
  - rewrite Hl. intros i j ri rj gi gj Hi Hj
      [[-> _]|[? Hli]]%lookup_insert_label
      [[-> _]|[? Hlj]]%lookup_insert_label Hseq; [done| | |by eauto].
    + rewrite Hrow in Hi. injection Hi as <-. destruct Hfree.
      rewrite Hseq. by eapply (labelled_used df st Hc).
    + rewrite Hrow in Hj. injection Hj as <-. destruct Hfree.
      rewrite <- Hseq. by eapply (labelled_used df st Hc).
  - lia.
  - rewrite Hl. intros i g [[_ ->]|[_ H]]%lookup_insert_label; eauto.
Qed.

Lemma visit_tidy st idx row :
  df !! idx = Some row -> tidy df st -> tidy df (visit max_length st idx row).
Proof.
  intros Hrow Ht. unfold visit. case_bool_decide as Hused; [done|].
  repeat (match goal with |- context [if ?b then _ else _] => destruct b end);
    try done; eapply (tidy_mark st _ idx row); try done; simpl; lia.
Qed.

Lemma scan_tidy rows idx st :
  (forall k r, rows !! k = Some r -> df !! (idx + k)%nat = Some r) ->
  tidy df st -> tidy df (scan max_length idx rows st).
Proof.
  revert idx st; induction rows as [|row rows IH]; intros idx st Hrows Ht;
    cbn [scan]; [done|].
  apply IH.
  - intros k r Hk. replace (S idx + k)%nat with (idx + S k)%nat by lia.
    by apply Hrows.
  - apply visit_tidy; [|done]. rewrite <- (Nat.add_0_r idx). by apply Hrows.
Qed.

Lemma pass_tidy st : tidy df st -> tidy df (pass max_length df st).
Proof.
  intros Ht. unfold pass.
  match goal with |- context [scan _ _ _ ?s] => set (st0 := s) end.
  assert (tidy df st0) as Ht0.
  { destruct Ht as [[? ? ?] ? ? ?]. by repeat split. }
  apply (scan_tidy df 0) in Ht0; [|done].
  destruct Ht0 as [[? ? ?] ? ? ?]. repeat split; try done.
  cbn [group_counter]. lia.
Qed.

Lemma init_tidy : tidy df (packer_init (List.length df)).
Proof.
  split; cbn [packer_init group_labels group_counter]; [| | lia |].
  - by destruct (init_closed max_length df).
  - by intros i j ri rj gi gj _ _ [[=] _]%lookup_replicate.
  - by intros idx g [[=] _]%lookup_replicate.
Qed.

Lemma passes_tidy k :
  tidy df (Nat.iter k (pass max_length df) (packer_init (List.length df))).
Proof. induction k as [|k IH]; [apply init_tidy|]. simpl. by apply pass_tidy. Qed.

(** The counter only moves in the oversized branch and at the end of a
    pass. *)
Lemma visit_counter st idx row :
  group_counter st <= group_counter (visit max_length st idx row)
  /\ (PyStr.len (Tagged.Sequence row) < 500 ->
      group_counter (visit max_length st idx row) = group_counter st).
Proof.
  unfold visit. case_bool_decide; [lia|].
  destruct (_ && _ && _); [simpl; lia|].
  destruct (Z.leb_spec 500 (PyStr.len (Tagged.Sequence row)));
    rewrite ?andb_false_r; [|simpl; lia].
  destruct (_ && _); simpl; lia.
Qed.

Lemma scan_counter rows idx st :
  group_counter st <= group_counter (scan max_length idx rows st)
  /\ (Forall (fun r => PyStr.len (Tagged.Sequence r) < 500) rows ->
      group_counter (scan max_length idx rows st) = group_counter st).
Proof.
  revert idx st; induction rows as [|row rows IH]; intros idx st; cbn [scan];
    [done|].
  destruct (IH (S idx) (visit max_length st idx row)) as [Hle Heq].
  destruct (visit_counter st idx row) as [Hle' Heq'].
  split; [lia|]. intros [Hrow Hrows]%Forall_cons.
  rewrite Heq, Heq' by done. done.
Qed.

Lemma passes_counter k st :
  group_counter st + Z.of_nat k
    <= group_counter (Nat.iter k (pass max_length df) st)
  /\ (Forall (fun r => PyStr.len (Tagged.Sequence r) < 500) df ->
      group_counter (Nat.iter k (pass max_length df) st)
      = group_counter st + Z.of_nat k).
Proof.
  induction k as [|k [IHle IHeq]]; [simpl; lia|].
  rewrite Nat.iter_succ.
  set (stk := Nat.iter k (pass max_length df) st) in *.
  unfold pass. cbn [group_counter].
  match goal with |- context [scan _ _ _ ?s] =>
    destruct (scan_counter df 0 s) as [Hle Heq] end.
  cbn [group_counter] in *. split; [lia|].
  intros Hshort. rewrite Heq, IHeq by done. lia.
Qed.

End packer_labels.

Section packer_outcomes.

Context (max_length : Z) (df : list Tagged.t) (progress : bool).

Implicit Types (st : packer) (idx : nat) (p : packing).

Lemma pack_final_tidy p :
  pack max_length df progress = Ret p -> tidy df (final p).
Proof.
  intros Hpack.
  destruct (pack_spec max_length df progress) as (p' & Hp & _ & _ & _ & Hfin & _).
  rewrite Hpack in Hp. injection Hp as <-. rewrite Hfin. apply passes_tidy.
Qed.

Lemma labelled_below labels idx :
  labels !! idx = Some None -> (labelled labels < List.length labels)%nat.
Proof.
  intros H. apply (length_filter_lt _ _ None).
  - by eapply list_elem_of_lookup_2.
  - by intros [? [=]].
Qed.

(** With an empty group at hand the first unused row of a scan is taken,
    whatever it is. *)
Lemma scan_marks_new rows idx st :
  499 <= max_length ->
  group st = [] -> total_length st = 0 -> clusters st = ∅ ->
  Exists (fun r => Tagged.Sequence r ∉ used_fragments st) rows ->
  exists s, (s ∉ used_fragments st)
            /\ s ∈ used_fragments (scan max_length idx rows st).
Proof.
  intros Hmax. revert idx st; induction rows as [|row rows IH];
    intros idx st Hg Ht Hc Hex; [by inversion Hex|]. cbn [scan].
  destruct (decide (Tagged.Sequence row ∈ used_fragments st)) as [Hin|Hout].
  - assert (visit max_length st idx row = st) as ->
      by (unfold visit; by rewrite bool_decide_eq_true_2).
    apply Exists_cons in Hex as [?|Hex]; [done|]. by apply IH.
  - exists (Tagged.Sequence row). split; [done|].
    apply (scan_used_mono max_length rows (S idx)).
    unfold visit. rewrite bool_decide_eq_false_2 by done.
    rewrite Hg, Ht, Hc. cbn [List.length Nat.ltb Nat.leb Nat.eqb andb].
    rewrite (bool_decide_eq_false_2 (_ ∈ ∅)) by set_solver.
    cbn [negb]. rewrite andb_true_r.
    destruct (Z.leb_spec (0 + PyStr.len (Tagged.Sequence row)) max_length);
      cbn [used_fragments]; [set_solver|].
    destruct (Z.leb_spec 500 (PyStr.len (Tagged.Sequence row)));
      cbn [used_fragments]; [set_solver|lia].
Qed.

Lemma pass_marks_new st :
  499 <= max_length ->
  Exists (fun r => Tagged.Sequence r ∉ used_fragments st) df ->
  (size (used_fragments st) < size (used_fragments (pass max_length df st)))%nat.
Proof.
  intros Hmax Hex. unfold pass. cbn [used_fragments].
  match goal with |- context [scan _ _ _ ?s] => set (st0 := s) end.
  destruct (scan_marks_new df 0 st0 Hmax eq_refl eq_refl eq_refl Hex)
    as (s & Hout & Hin).
  apply subset_size. split.
  - apply (scan_used_mono max_length df 0 st0).
  - intros Hsub. apply Hout. by apply Hsub.
Qed.

(** As long as rows with pairwise different sequences are not all used,
    one of them is unused. *)
Lemma unused_row_exists st :
  NoDup (map Tagged.Sequence df) ->
  (size (used_fragments st) < List.length df)%nat ->
  Exists (fun r => Tagged.Sequence r ∉ used_fragments st) df.
Proof.
  intros Hnd Hlt.
  destruct (decide (Exists (fun r => Tagged.Sequence r ∉ used_fragments st) df))
    as [|Hall]; [done|].
  apply not_Exists_Forall in Hall; [|apply _].
  assert (list_to_set (map Tagged.Sequence df) ⊆ used_fragments st) as Hsub.
  { intros s [r [-> Hr]]%elem_of_list_to_set%list_elem_of_fmap.
    rewrite Forall_forall in Hall. specialize (Hall r Hr). simpl in Hall.
    by destruct (decide (Tagged.Sequence r ∈ used_fragments st)). }
  apply subseteq_size in Hsub.
  rewrite size_list_to_set, length_map in Hsub by done. lia.
Qed.

Lemma passes_mark_one_each k :
  499 <= max_length ->
  NoDup (map Tagged.Sequence df) ->
  (forall j, (j < k)%nat ->
     (size (used_fragments
              (Nat.iter j (pass max_length df) (packer_init (List.length df))))
      < List.length df)%nat) ->
  (k <= size (used_fragments
                (Nat.iter k (pass max_length df) (packer_init (List.length df)))))%nat.
Proof.
  intros Hmax Hnd. induction k as [|k IH]; intros Hrun; [lia|].
  rewrite Nat.iter_succ.
  pose proof (pass_marks_new _ Hmax
                (unused_row_exists _ Hnd (Hrun k ltac:(lia)))) as Hgrow.
  specialize (IH ltac:(intros; apply Hrun; lia)). lia.
Qed.

End packer_outcomes.

(** X7: when the sequences of the rows are pairwise different and
    [max_length] is 499 (the default) or more, every pass takes at least
    one more row: the loop of [group_fragments] ends after at most as
    many passes as there are rows, the safety bound is not reached, and
    every row has a label. *)
Theorem distinct_sequences_all_grouped
    (max_length : Z) (df : list Tagged.t) (progress : bool) (p : packing) :
  499 <= max_length ->
  NoDup (map Tagged.Sequence df) ->
  pack max_length df progress = Ret p ->
  iter_counter p <= Z.of_nat (List.length df)
  /\ forall idx r,
       df !! idx = Some r ->
       exists g, group_labels (final p) !! idx = Some (Some g).
Proof.
  intros Hmax Hnd Hpack.
  destruct (pack_spec max_length df progress)
    as (p' & Hp & Hcp & Hic & Hall & Hfin & Hrun & _).
  rewrite Hpack in Hp. injection Hp as <-.
  pose proof (passes_mark_one_each max_length df _ Hmax Hnd Hrun) as Hk.
  rewrite <- Hfin in Hk.
  pose proof (closed_used_le max_length df _ Hcp) as Hle.
  assert (iter_counter p <= Z.of_nat (List.length df)) as Hiter by lia.
  split; [done|]. intros idx r Hr.
  specialize (Hall ltac:(lia)).
  destruct Hcp as [[Hlen _ Hsize] _ _].
  apply labelled_full; [lia|]. rewrite Hlen. by eapply lookup_lt_Some.
Qed.

Lemma distinct_sequences_all_grouped_witness :
  match pack MAX_LENGTH three_rows false with
  | Ret p => iter_counter p <= 3
  | _ => False
  end.
Proof.
  destruct (pack MAX_LENGTH three_rows false) as [p| |] eqn:Hp;
    [|by vm_compute in Hp..].
  apply (distinct_sequences_all_grouped MAX_LENGTH three_rows false p);
    [by vm_compute| |done].
  repeat constructor; rewrite ?list_elem_of_In; simpl;
    intros H; repeat (destruct H as [H|H]; [discriminate H|]); exact H.
Defined.


(** X9: when two rows hold the same sequence, the loop of
    [group_fragments] runs into its safety bound after 3 n + 1 passes and
    one of the two rows is left without a label. *)
Theorem duplicate_sequences_exhaust
    (max_length : Z) (df : list Tagged.t) (progress : bool) (p : packing)
    (i j : nat) (ri rj : Tagged.t) :
  pack max_length df progress = Ret p ->
  i <> j -> df !! i = Some ri -> df !! j = Some rj ->
  Tagged.Sequence ri = Tagged.Sequence rj ->
  iter_counter p = 3 * Z.of_nat (List.length df) + 1
  /\ (group_labels (final p) !! i = Some None
      \/ group_labels (final p) !! j = Some None).
Proof.
  intros Hpack Hij Hi Hj Hseq.
  pose proof (pack_final_tidy max_length df progress p Hpack) as [Hc Honce _ _].
  destruct (pack_spec max_length df progress)
    as (p' & Hp & Hcp & Hic & Hall & _).
  rewrite Hpack in Hp. injection Hp as <-.
  assert (group_labels (final p) !! i = Some None
          \/ group_labels (final p) !! j = Some None) as Hnone.
  { destruct Hc as [Hlen _ _].
    destruct (lookup_lt_is_Some_2 (group_labels (final p)) i) as [[gi|] Hli];
      [rewrite Hlen; by eapply lookup_lt_Some| |by left].
    destruct (lookup_lt_is_Some_2 (group_labels (final p)) j) as [[gj|] Hlj];
      [rewrite Hlen; by eapply lookup_lt_Some| |by right].
    destruct Hij. by eapply Honce. }
  split; [|done].
  assert (labelled (group_labels (final p))
          < List.length (group_labels (final p)))%nat as Hlt
    by (destruct Hnone; by eapply labelled_below).
  destruct Hc as [Hlen _ Hsize].
  destruct (Z.le_gt_cases (iter_counter p) (Z.of_nat (List.length df) * 3));
    [specialize (Hall ltac:(done))|]; lia.
Qed.

Lemma duplicate_sequences_exhaust_witness :
  match pack MAX_LENGTH twin_rows false with
  | Ret p => iter_counter p = 7
  | _ => False
  end.
Proof.
  destruct (pack MAX_LENGTH twin_rows false) as [p| |] eqn:Hp;
    [|by vm_compute in Hp..].
  by apply (duplicate_sequences_exhaust MAX_LENGTH twin_rows false p 0 1
              (fragment "A" "ACGT" 0) (fragment "B" "ACGT" 1)).
Defined.





(** X11: every label handed out by [group_fragments] lies between 0 and
    the final value of the counter, which is at least the number of
    passes; when no row has 500 letters or more (the case of every table
    [pipeline] passes in) the oversized branch is never taken, the
    counter ends at the number of passes and every label is below it. *)
Theorem labels_below_counter
    (max_length : Z) (df : list Tagged.t) (progress : bool) (p : packing) :
  pack max_length df progress = Ret p ->
  (forall idx g,
     group_labels (final p) !! idx = Some (Some g) ->
     0 <= g < group_counter (final p))
  /\ iter_counter p <= group_counter (final p)
  /\ (Forall (fun r => PyStr.len (Tagged.Sequence r) < 500) df ->
      group_counter (final p) = iter_counter p).
Proof.
  intros Hpack.
  pose proof (pack_final_tidy max_length df progress p Hpack) as [_ _ _ Hlab].
  destruct (pack_spec max_length df progress)
    as (p' & Hp & Hcp & Hic & _ & Hfin & _).
  rewrite Hpack in Hp. injection Hp as <-.
  destruct (passes_counter max_length df (Z.to_nat (iter_counter p))
              (packer_init (List.length df))) as [Hle Heq].
  rewrite <- Hfin in Hle, Heq. cbn [packer_init group_counter] in Hle, Heq.
  split_and!.
  - intros idx g Hg. split; [by eapply Hlab|].
    by eapply (closed_below max_length df (final p) Hcp).
  - lia.
  - intros Hshort. rewrite Heq by done. lia.
Qed.

Lemma labels_below_counter_witness :
  match pack MAX_LENGTH three_rows false with
  | Ret p => iter_counter p <= group_counter (final p)
  | _ => False
  end.
Proof.
  destruct (pack MAX_LENGTH three_rows false) as [p| |] eqn:Hp;
    [|by vm_compute in Hp..].
  apply (labels_below_counter MAX_LENGTH three_rows false p Hp).
Defined.

(** ** The table returned by [group_fragments] *)

Lemma length_astype_int (E : externals) (labels : list (option Z)) :
  List.length (astype_int E labels) = List.length labels.
Proof. apply length_imap. Qed.

Lemma lookup_astype_int (E : externals) (labels : list (option Z)) idx g :
  labels !! idx = Some (Some g) -> astype_int E labels !! idx = Some g.
Proof. intros H. unfold astype_int. by rewrite list_lookup_imap, H. Qed.

Lemma astype_int_full (E E' : externals) (labels : list (option Z)) :
  labelled labels = List.length labels ->
  astype_int E labels = astype_int E' labels.
Proof.
  intros Hfull. apply list_eq. intros idx. unfold astype_int.
  rewrite !list_lookup_imap.
  destruct (labels !! idx) as [l|] eqn:Hl; [|done].
  destruct (labelled_full labels idx Hfull) as [g Hg];
    [by eapply lookup_lt_Some|].
  rewrite Hl in Hg. by injection Hg as ->.
Qed.

Lemma tagged_with_Group (df : list Tagged.t) (groups : list Z) :
  List.length groups = List.length df ->
  map Packed.tagged (with_Group df groups) = df.
Proof.
  unfold with_Group. revert groups; induction df as [|r df IH];
    intros [|g groups]; simpl; try done.
  intros [= H]. by rewrite IH.
Qed.

Lemma lookup_with_Group (df : list Tagged.t) (groups : list Z) idx r g :
  df !! idx = Some r -> groups !! idx = Some g ->
  with_Group df groups !! idx
  = Some {| Packed.tagged := r; Packed.Group := g |}.
Proof.
  intros Hr Hg. unfold with_Group. by rewrite lookup_zip_with, Hr, Hg.
Qed.

(** X12: the table returned by [group_fragments] has the rows of [df],
    in order, with the [Group] column added: the label of the row where
    the packer wrote one.  When the safety bound is not reached, the
    table does not depend on what the [np.empty] array held. *)
Theorem group_fragments_table
    (E : externals) (max_length : Z) (df : list Tagged.t) (progress : bool)
    (p : packing) :
  pack max_length df progress = Ret p ->
  exists out,
    group_fragments E max_length df progress = Ret (packing_trace p, out)
    /\ map Packed.tagged out = df
    /\ (forall idx g,
          group_labels (final p) !! idx = Some (Some g) ->
          Packed.Group <$> out !! idx = Some g)
    /\ (iter_counter p <= 3 * Z.of_nat (List.length df) ->
        forall E', group_fragments E' max_length df progress
                   = Ret (packing_trace p, out)).
Proof.
  intros Hpack.
  destruct (pack_spec max_length df progress)
    as (p' & Hp & Hcp & Hic & Hall & _).
  rewrite Hpack in Hp. injection Hp as <-.
  pose proof (closed_used_le max_length df _ Hcp) as Hle.
  destruct Hcp as [[Hlen _ Hsize] _ _].
  unfold group_fragments. rewrite Hpack. cbn [mbind res_bind].
  eexists. split_and!; [done|..].
  - apply tagged_with_Group. by rewrite length_astype_int.
  - intros idx g Hg.
    destruct (lookup_lt_is_Some_2 df idx) as [r Hr].
    { rewrite <- Hlen. by eapply lookup_lt_Some. }
    by rewrite (lookup_with_Group df _ idx r g Hr (lookup_astype_int E _ idx g Hg)).
  - intros Hbound E'. specialize (Hall ltac:(lia)).
    by rewrite (astype_int_full E' E) by lia.
Qed.

Lemma group_fragments_table_witness :
  match pack MAX_LENGTH three_rows false with
  | Ret p => exists out,
      group_fragments E0 MAX_LENGTH three_rows false = Ret (packing_trace p, out)
  | _ => False
  end.
Proof.
  destruct (pack MAX_LENGTH three_rows false) as [p| |] eqn:Hp;
    [|by vm_compute in Hp..].
  destruct (group_fragments_table E0 MAX_LENGTH three_rows false p Hp)
    as (out & Hout & _).
  by exists out.
Defined.

(** ** The table written by [pipeline] *)

Lemma tagged_aggressive (df1 : list Packed.t) :
  map Packed.tagged (apply_aggressive_grouping df1) = map Packed.tagged df1.
Proof.
  unfold apply_aggressive_grouping. rewrite aggressive_loop_relabel, map_map.
  by apply map_ext.
Qed.

Lemma frag_imap_tagged (df : list Frag.t) (label : nat -> Z) :
  map Tagged.frag
      (imap (fun i r => {| Tagged.frag := r; Tagged.Cluster := label i |}) df)
  = df.
Proof.
  revert label; induction df as [|r df IH]; intros label; [done|].
  cbn [imap map]. f_equal. apply (IH (label ∘ S)).
Qed.

(** What [assemble] hands to the rewriter: the aggregate of a packed
    table whose rows are the packable fragments, followed by the long
    fragments. *)
Lemma assemble_rows (E : externals) (aggressive progress : bool)
    (table : list Frag.t) :
  exists trace df1,
    assemble E aggressive progress table =
      Ret (trace,
           add_back (initial_max_group (aggregate df1))
                    (large (map upper_row table)) (aggregate df1))
    /\ map (fun x => Tagged.frag (Packed.tagged x)) df1
       = packable (map upper_row table).
Proof.
  unfold assemble.
  destruct (compute_distance_matrix E _ progress) as [t_dist sim].
  match goal with
  | |- context [group_fragments E ?m ?d progress] =>
      destruct (pack_spec m d progress) as (p & Hp & Hcp & _);
      destruct (group_fragments_returns E m d progress) as (p' & Hp' & -> & _);
      set (dfc := d) in *
  end.
  rewrite Hp in Hp'. injection Hp' as <-. cbn [mbind res_bind].
  do 2 eexists. split; [done|].
  assert (map (fun x => Tagged.frag (Packed.tagged x))
              (with_Group dfc (astype_int E (group_labels (final p))))
          = packable (map upper_row table)) as Hrows.
  { rewrite <- (map_map Packed.tagged Tagged.frag), tagged_with_Group.
    - apply frag_imap_tagged.
    - rewrite length_astype_int. by destruct Hcp as [[? _ _] _ _]. }
  destruct aggressive; [|done].
  by rewrite <- (map_map Packed.tagged Tagged.frag), tagged_aggressive, map_map.
Qed.


Lemma lookup_added_back (m : Z) (df_large : list Frag.t) (i : nat) (r : Frag.t) :
  df_large !! i = Some r ->
  imap (fun i row =>
          {| Grouped.Group := m + 1 + Z.of_nat i;
             Grouped.Sequence := Frag.Sequence row;
             Grouped.Name := [Frag.Name row];
             Grouped.Length := PyStr.len (Frag.Sequence row) |}) df_large !! i
  = Some {| Grouped.Group := m + 1 + Z.of_nat i;
            Grouped.Sequence := Frag.Sequence r;
            Grouped.Name := [Frag.Name r];
            Grouped.Length := PyStr.len (Frag.Sequence r) |}.
Proof. intros H. by rewrite list_lookup_imap, H. Qed.




(** X14: no fragment of the loaded table is lost on the way: the name of
    each one, in upper case, is in the [Name] list of a row of the table
    written, also when the packer gives up on it. *)
Theorem every_fragment_named_in_output
    (E : externals) (aggressive progress : bool) (table : list Frag.t)
    (trace : list Q) (out : list Grouped.t) (r : Frag.t) :
  pipeline E aggressive progress table = Ret (trace, out) ->
  r ∈ table ->
  exists row, row ∈ out /\ PyStr.upper (Frag.Name r) ∈ Grouped.Name row.
Proof.
  unfold pipeline.
  destruct (assemble_rows E aggressive progress table)
    as (t & df1 & -> & Hrows). cbn [mbind res_bind].
  unfold replace_cut_sites_and_pad.
  destruct (rewrite_rows_returns E 0
              (add_back (initial_max_group (aggregate df1))
                        (large (map upper_row table)) (aggregate df1)))
    as (out' & -> & _ & Hn).
  cbn [mbind res_bind]. intros [= _ <-] Hr.
  assert (exists names,
            names ∈ map Grouped.Name out'
            /\ PyStr.upper (Frag.Name r) ∈ names) as (names & Hin & Hname).
  { rewrite Hn, add_back_rows, map_app. setoid_rewrite elem_of_app.
    assert (upper_row r ∈ map upper_row table) as Hup
      by (by apply list_elem_of_fmap_2).
    destruct (Z.le_gt_cases 400 (PyStr.len (Frag.Sequence (upper_row r))))
      as [Hlong|Hshort].
    - (* a long fragment: its own row *)
      assert (upper_row r ∈ large (map upper_row table)) as Hl
        by (by apply list_elem_of_filter).
      apply list_elem_of_lookup_1 in Hl as [i Hi].
      exists [Frag.Name (upper_row r)]. split; [right|by left].
      apply (list_elem_of_fmap_2' Grouped.Name _ _ _
               (list_elem_of_lookup_2 _ _ _
                  (lookup_added_back _ _ i _ Hi))). done.
    - (* a packable fragment: the row of its group *)
      assert (upper_row r ∈ packable (map upper_row table)) as Hp
        by (apply list_elem_of_filter; unfold MAX_LENGTH; split; [lia|done]).
      rewrite <- Hrows in Hp. change map with (@fmap list _) in Hp.
      apply list_elem_of_fmap in Hp as (x & Hx & Hxin).
      exists (map Packed.Name (sub_frame (Packed.Group x) df1)).
      split; [left|].
      + unfold aggregate. rewrite map_map. cbn [Grouped.Name].
        apply (list_elem_of_fmap_2
                 (fun g => map Packed.Name (sub_frame g df1))).
        apply elem_of_group_keys. by apply list_elem_of_fmap_2.
      + replace (PyStr.upper (Frag.Name r)) with (Packed.Name x)
          by (unfold Packed.Name, Tagged.Name; by rewrite <- Hx).
        apply list_elem_of_fmap_2. by apply list_elem_of_filter. }
  change map with (@fmap list _) in Hin.
  apply list_elem_of_fmap in Hin as (row & -> & Hrow). eauto.
Qed.

Lemma every_fragment_named_in_output_witness :
  match pipeline E0 true true small_table with
  | Ret (_, out) => exists row, row ∈ out /\ "F2"%string ∈ Grouped.Name row
  | _ => False
  end.
Proof.
  destruct (pipeline E0 true true small_table) as [[trace out]| |] eqn:Hrun;
    [|by vm_compute in Hrun..].
  apply (every_fragment_named_in_output E0 true true small_table trace out
           {| Frag.Name := "f2"; Frag.Author := "bob"; Frag.Sequence := "ggtacc" |}
           Hrun).
  right. left.
Defined.





(** ** The progress bar *)

Section progress_bar.

Context (format_0f : Q -> string).

Lemma update_progress_cases (percent : Q) (self : GrouperApp.t) :
  ((percent < GrouperApp.prog_var self)%Q
   /\ GrouperApp.update_progress format_0f percent self = self)
  \/ ((GrouperApp.prog_var self <= percent)%Q
      /\ GrouperApp.update_progress format_0f percent self
         = GrouperApp.mk percent (GrouperApp.label_text format_0f percent)).
Proof.
  unfold GrouperApp.update_progress.
  destruct (Qlt_le_dec percent (GrouperApp.prog_var self)); [by left|by right].
Qed.

Lemma bar_after_cons (percent : Q) (rest : list Q) (self : GrouperApp.t) :
  bar_after format_0f (percent :: rest) self
  = bar_after format_0f rest
      (GrouperApp.update_progress format_0f percent self).
Proof. done. Qed.

Lemma bar_after_last (arrivals : list Q) (self : GrouperApp.t) :
  bar_after format_0f arrivals self
  = default self (last (bar_states format_0f arrivals self)).
Proof.
  revert self; induction arrivals as [|percent rest IH]; intros self; [done|].
  rewrite bar_after_cons, IH. cbn [bar_states]. rewrite last_cons.
  by destruct (last (bar_states format_0f rest _)).
Qed.

Lemma bar_states_above (arrivals : list Q) (self : GrouperApp.t) :
  Forall (fun s => (GrouperApp.prog_var self <= GrouperApp.prog_var s)%Q)
         (bar_states format_0f arrivals self).
Proof.
  revert self; induction arrivals as [|percent rest IH]; intros self;
    cbn [bar_states]; [constructor|].
  assert (GrouperApp.prog_var self
          <= GrouperApp.prog_var
               (GrouperApp.update_progress format_0f percent self))%Q as Hle.
  { destruct (update_progress_cases percent self) as [[_ ->]|[H ->]];
      [apply Qle_refl|done]. }
  constructor; [done|].
  eapply Forall_impl; [apply IH|]. intros s Hs. cbn beta in Hs.
  by eapply Qle_trans.
Qed.

Lemma bar_states_sorted (arrivals : list Q) (self : GrouperApp.t) :
  StronglySorted Qle
    (map GrouperApp.prog_var (bar_states format_0f arrivals self)).
Proof.
  revert self; induction arrivals as [|percent rest IH]; intros self;
    cbn [bar_states map]; constructor; [apply IH|].
  apply Forall_fmap. apply bar_states_above.
Qed.

Lemma bar_after_largest (arrivals : list Q) (self : GrouperApp.t) :
  (GrouperApp.prog_var self
   <= GrouperApp.prog_var (bar_after format_0f arrivals self))%Q
  /\ Forall (fun v =>
               (v <= GrouperApp.prog_var (bar_after format_0f arrivals self))%Q)
            arrivals
  /\ (bar_after format_0f arrivals self = self
      \/ exists v,
           v ∈ arrivals
           /\ bar_after format_0f arrivals self
              = GrouperApp.mk v (GrouperApp.label_text format_0f v)).
Proof.
  revert self; induction arrivals as [|percent rest IH]; intros self.
  - split_and!; [apply Qle_refl|constructor|by left].
  - rewrite bar_after_cons.
    destruct (IH (GrouperApp.update_progress format_0f percent self))
      as (Hle & Hall & Hlast).
    destruct (update_progress_cases percent self) as [[Hlt Hu]|[Hge Hu]];
      rewrite Hu in *.
    + split_and!; [done| |].
      * constructor; [|done]. apply Qlt_le_weak. by eapply Qlt_le_trans.
      * destruct Hlast as [?|(v & Hv & ?)]; [by left|right].
        exists v. split; [by right|done].
    + cbn [GrouperApp.prog_var] in Hle. split_and!.
      * by eapply Qle_trans.
      * by constructor.
      * right. destruct Hlast as [->|(v & Hv & ?)].
        -- exists percent. split; [by left|done].
        -- exists v. split; [by right|done].
Qed.

(** Updates that arrive in non-decreasing order are all taken. *)
Lemma bar_states_in_order (arrivals : list Q) (self : GrouperApp.t) :
  StronglySorted Qle arrivals ->
  Forall (fun v => (GrouperApp.prog_var self <= v)%Q) arrivals ->
  bar_states format_0f arrivals self
  = map (fun v => GrouperApp.mk v (GrouperApp.label_text format_0f v)) arrivals.
Proof.
  intros Hs; revert self.
  induction Hs as [|percent rest _ IH Hhd]; intros self Hall; [done|].
  cbn [bar_states map]. apply Forall_cons in Hall as [Hp _].
  destruct (update_progress_cases percent self) as [[Hlt _]|[_ ->]].
  - by apply Qlt_not_le in Hlt.
  - f_equal. by apply IH.
Qed.

(** The callbacks of a run of [pipeline]: sorted, from 0 on, and nothing
    but the last one reaches 100. *)
Lemma pipeline_trace (E : externals) (aggressive : bool) (table : list Frag.t)
    (trace : list Q) (out : list Grouped.t) :
  pipeline E aggressive true table = Ret (trace, out) ->
  exists t,
    trace = t ++ [98%Q; 100%Q]
    /\ StronglySorted Qle trace
    /\ within 0 95 t.
Proof.
  intros Hrun.
  destruct (pipeline_returns E aggressive true table) as (t & o & Hp & Hs & Hw).
  rewrite Hrun in Hp. injection Hp as -> ->.
  exists t. split_and!; [done| |done].
  apply (sorted_app 0 95 100 t (emit true 98 ++ emit true 100)); try done.
  - repeat constructor. done.
  - repeat constructor; done.
Qed.

End progress_bar.

(** X16: whatever values arrive and in whatever order, the bar never
    goes back from one update to the next, it ends at a value no smaller
    than any that arrived, and bar and label are either as they were
    before or those of one and the same arrived value. *)
Theorem bar_never_goes_back (format_0f : Q -> string) (arrivals : list Q)
    (self : GrouperApp.t) :
  StronglySorted Qle
    (GrouperApp.prog_var self
     :: map GrouperApp.prog_var (bar_states format_0f arrivals self))
  /\ Forall (fun v =>
               (v <= GrouperApp.prog_var (bar_after format_0f arrivals self))%Q)
            arrivals
  /\ (bar_after format_0f arrivals self = self
      \/ exists v,
           v ∈ arrivals
           /\ bar_after format_0f arrivals self
              = GrouperApp.mk v (GrouperApp.label_text format_0f v)).
Proof.
  split; [|apply bar_after_largest].
  constructor; [apply bar_states_sorted|].
  apply Forall_fmap. apply bar_states_above.
Qed.

(** X17: fed with the callbacks of a run of [pipeline] in the order in
    which they were made, the bar takes every one of the values, none is
    skipped as stale, and the window ends at 100 with the label
    "Done. (... %)". *)
Theorem bar_follows_pipeline (format_0f : Q -> string)
    (E : externals) (aggressive : bool) (table : list Frag.t)
    (trace : list Q) (out : list Grouped.t) :
  pipeline E aggressive true table = Ret (trace, out) ->
  bar_states format_0f trace GrouperApp.start
  = map (fun v => GrouperApp.mk v (GrouperApp.label_text format_0f v)) trace
  /\ bar_after format_0f trace GrouperApp.start
     = GrouperApp.mk 100 ("Done. (" +:+ format_0f 100%Q +:+ " %)").
Proof.
  intros Hrun.
  destruct (pipeline_trace E aggressive table trace out Hrun)
    as (t & -> & Hs & Hw).
  assert (bar_states format_0f (t ++ [98%Q; 100%Q]) GrouperApp.start
          = map (fun v => GrouperApp.mk v (GrouperApp.label_text format_0f v))
                (t ++ [98%Q; 100%Q])) as Hstates.
  { apply bar_states_in_order; [done|].
    apply Forall_app. split; [|repeat constructor; done].
    eapply Forall_impl; [apply Hw|]. by intros v [? _]. }
  split; [done|].
  rewrite bar_after_last, Hstates.
  replace (t ++ [98%Q; 100%Q]) with ((t ++ [98%Q]) ++ [100%Q])
    by by rewrite <- app_assoc.
  rewrite map_app. cbn [map]. by rewrite last_snoc.
Qed.

Lemma bar_follows_pipeline_witness :
  match pipeline E0 true true small_table with
  | Ret (trace, _) =>
      bar_states floor_text trace GrouperApp.start
      = map (fun v => GrouperApp.mk v (GrouperApp.label_text floor_text v)) trace
      /\ bar_after floor_text trace GrouperApp.start
         = GrouperApp.mk 100 "Done. (100 %)"
  | _ => False
  end.
Proof.
  destruct (pipeline E0 true true small_table) as [[trace out]| |] eqn:Hrun;
    [|by vm_compute in Hrun..].
  apply (bar_follows_pipeline floor_text E0 true small_table trace out Hrun).
Defined.

(** X18: of the callbacks of a run of [pipeline], whichever arrive and in
    whatever order, as long as the last one, 100, is among them, the
    window ends at 100 with the label "Done. (... %)". *)
Theorem bar_ends_done (format_0f : Q -> string)
    (E : externals) (aggressive : bool) (table : list Frag.t)
    (trace : list Q) (out : list Grouped.t) (arrivals : list Q) :
  pipeline E aggressive true table = Ret (trace, out) ->
  Forall (fun v => v ∈ trace) arrivals ->
  100%Q ∈ arrivals ->
  bar_after format_0f arrivals GrouperApp.start
  = GrouperApp.mk 100 ("Done. (" +:+ format_0f 100%Q +:+ " %)").
Proof.
  intros Hrun Hsub Hdone.
  destruct (pipeline_trace E aggressive table trace out Hrun)
    as (t & -> & _ & Hw).
  destruct (bar_after_largest format_0f arrivals GrouperApp.start)
    as (_ & Hall & Hlast).
  assert (100 <= GrouperApp.prog_var
                   (bar_after format_0f arrivals GrouperApp.start))%Q as Hfull.
  { rewrite Forall_forall in Hall. by apply Hall. }
  destruct Hlast as [Hlast|(v & Hv & Hlast)]; rewrite Hlast in *.
  - by vm_compute in Hfull.
  - cbn [GrouperApp.prog_var] in Hfull.
    rewrite Forall_forall in Hsub. apply Hsub in Hv.
    apply elem_of_app in Hv as [Hv|Hv].
    + unfold within in Hw. rewrite Forall_forall in Hw.
      destruct (Hw v Hv) as [_ Hle].
      assert (100 <= 95)%Q as Habs by (by eapply Qle_trans).
      by vm_compute in Habs.
    + apply elem_of_cons in Hv as [->|Hv]; [by vm_compute in Hfull|].
      apply list_elem_of_singleton in Hv as ->. done.
Qed.

Lemma bar_ends_done_witness :
  bar_after floor_text [100%Q; 98%Q; 0%Q] GrouperApp.start
  = GrouperApp.mk 100 "Done. (100 %)".
Proof.
  destruct (pipeline E0 true true small_table) as [[trace out]| |] eqn:Hrun;
    [|by vm_compute in Hrun..].
  apply (bar_ends_done floor_text E0 true small_table trace out _ Hrun).
  - vm_compute in Hrun. injection Hrun as <- _. repeat constructor.
  - left.
Defined.

(** ** Unwritten labels *)

Lemma distinct_sequences_full
    (max_length : Z) (df : list Tagged.t) (progress : bool) (p : packing) :
  499 <= max_length ->
  NoDup (map Tagged.Sequence df) ->
  pack max_length df progress = Ret p ->
  labelled (group_labels (final p)) = List.length (group_labels (final p)).
Proof.
  intros Hmax Hnd Hpack.
  destruct (pack_spec max_length df progress)
    as (p' & Hp & Hcp & Hic & Hall & Hfin & Hrun & _).
  rewrite Hpack in Hp. injection Hp as <-.
  pose proof (passes_mark_one_each max_length df _ Hmax Hnd Hrun) as Hk.
  rewrite <- Hfin in Hk.
  pose proof (closed_used_le max_length df _ Hcp) as Hle.
  specialize (Hall ltac:(lia)).
  destruct Hcp as [[Hlen _ Hsize] _ _]. lia.
Qed.

Lemma sequence_imap_tagged (df : list Frag.t) (label : nat -> Z) :
  map Tagged.Sequence
      (imap (fun i r => {| Tagged.frag := r; Tagged.Cluster := label i |}) df)
  = map Frag.Sequence df.
Proof.
  rewrite <- (frag_imap_tagged df label) at 2. by rewrite map_map.
Qed.

Lemma group_fragments_np_empty (E : externals) (junk : nat -> Z)
    (max_length : Z) (df : list Tagged.t) (progress : bool) :
  499 <= max_length ->
  NoDup (map Tagged.Sequence df) ->
  group_fragments (with_np_empty E junk) max_length df progress
  = group_fragments E max_length df progress.
Proof.
  intros Hmax Hnd. unfold group_fragments.
  destruct (pack max_length df progress) as [p| |] eqn:Hp; [|done..].
  cbn [mbind res_bind].
  by rewrite (astype_int_full (with_np_empty E junk) E)
    by (by eapply distinct_sequences_full).
Qed.

Lemma rewrite_rows_np_empty (E : externals) (junk : nat -> Z) (idx : nat)
    (rows : list Grouped.t) :
  rewrite_rows (with_np_empty E junk) idx rows = rewrite_rows E idx rows.
Proof.
  revert idx; induction rows as [|row rows IH]; intros idx; [done|].
  cbn [rewrite_rows]. by rewrite IH.
Qed.

(** X19: when the fragments of fewer than 499 letters have pairwise
    different sequences (in upper case), the run does not depend on what
    the label array of [group_fragments] held before it was written:
    table and progress values are the same for every content of that
    memory. *)
Theorem pipeline_ignores_unwritten_labels
    (E : externals) (junk : nat -> Z) (aggressive progress : bool)
    (table : list Frag.t) :
  NoDup (map Frag.Sequence (packable (map upper_row table))) ->
  pipeline (with_np_empty E junk) aggressive progress table
  = pipeline E aggressive progress table.
Proof.
  intros Hnd. unfold pipeline, assemble.
  change (compute_distance_matrix (with_np_empty E junk))
    with (compute_distance_matrix E).
  change (affinity_labels (with_np_empty E junk)) with (affinity_labels E).
  destruct (compute_distance_matrix E _ progress) as [t_dist sim].
  rewrite group_fragments_np_empty;
    [|done|by rewrite sequence_imap_tagged].
  destruct (group_fragments E _ _ progress) as [[t_pack df1]| |]; [|done..].
  cbn [mbind res_bind]. unfold replace_cut_sites_and_pad.
  by rewrite rewrite_rows_np_empty.
Qed.

Lemma pipeline_ignores_unwritten_labels_witness :
  pipeline (with_np_empty E0 (fun _ => 7)) true true small_table
  = pipeline E0 true true small_table.
Proof.
  apply (pipeline_ignores_unwritten_labels E0 (fun _ => 7) true true small_table).
  vm_compute. repeat constructor; rewrite ?list_elem_of_In; simpl; intuition congruence.
Defined.
